(** * AP_MotorsMulticopter: a shallow embedding of the multicopter output stage

    Source: libraries/AP_Motors/AP_MotorsMulticopter.cpp.

    Floats are modelled as rationals [Q]; a C++ comparison [a < b] becomes
    [Qltb a b], [a <= b] becomes [Qleb a b].  Collaborators that live in
    other translation units (the battery monitor, the thrust linearizer,
    the servo channel library, the base class [AP_Motors]) appear as inputs:
    fields of an environment record, or section variables. *)

From Stdlib Require Import QArith Qround Qabs Arith Ascii String Decimal List Lia Lqa Psatz.
Import ListNotations.
Open Scope Q_scope.

(** ** Float helpers *)

Definition Qltb (x y : Q) : bool := negb (Qle_bool y x).
Definition Qleb (x y : Q) : bool := Qle_bool x y.

(** [constrain_float] of AP_Math: [if (amt < low) return low;
    if (amt > high) return high; return amt;] *)
Definition constrain_float (amt low high : Q) : Q :=
  if Qltb amt low then low else if Qltb high amt then high else amt.

Definition Qmin' (a b : Q) : Q := if Qltb a b then a else b.  (* MIN *)
Definition Qmax' (a b : Q) : Q := if Qltb b a then a else b.  (* MAX *)

(** FLT_EPSILON = 2^-23 *)
Definition FLT_EPSILON : Q := 1 # 8388608.

(** AP_Math's [is_positive] and [is_zero] (outside this file):
    [x >= FLT_EPSILON] and [fabsf(x) < FLT_EPSILON]. *)
Definition is_positive (x : Q) : bool := Qleb FLT_EPSILON x.
Definition is_zero (x : Q) : bool := Qltb (Qabs x) FLT_EPSILON.

(** Conversion of a float to an integer type: truncation toward zero. *)
Definition float_to_int (q : Q) : Z :=
  if Qle_bool 0 q then Qfloor q else (- Qfloor (- q))%Z.

(** ** Data model *)

Inductive SpoolState :=
  SHUT_DOWN | GROUND_IDLE | SPOOLING_UP | THROTTLE_UNLIMITED | SPOOLING_DOWN.

Inductive DesiredSpoolState := DS_SHUT_DOWN | DS_GROUND_IDLE | DS_THROTTLE_UNLIMITED.

Definition SpoolState_eqb (a b : SpoolState) : bool :=
  match a, b with
  | SHUT_DOWN, SHUT_DOWN | GROUND_IDLE, GROUND_IDLE | SPOOLING_UP, SPOOLING_UP
  | THROTTLE_UNLIMITED, THROTTLE_UNLIMITED | SPOOLING_DOWN, SPOOLING_DOWN => true
  | _, _ => false
  end.

Definition DesiredSpoolState_eqb (a b : DesiredSpoolState) : bool :=
  match a, b with
  | DS_SHUT_DOWN, DS_SHUT_DOWN | DS_GROUND_IDLE, DS_GROUND_IDLE
  | DS_THROTTLE_UNLIMITED, DS_THROTTLE_UNLIMITED => true
  | _, _ => false
  end.

(** What one tick reads but does not write: parameters, the arming and
    interlock inputs, the base-class getters and the battery monitor readings
    ([batt_current] is [None] when [current_amps] returns false). *)
Record Env := {
  armed : bool;                       (* armed() *)
  interlock : bool;                   (* get_interlock() *)
  dt_s : Q;
  disarm_disable_pwm : bool;
  safe_time : Q;
  spool_down_time : Q;
  slew_up_time : Q;
  slew_dn_time : Q;
  spin_arm : Q;
  spin_min : Q;                       (* thr_lin.get_spin_min() *)
  spoolup_block : bool;               (* get_spoolup_block() *)
  thrust_balanced : bool;
  get_throttle : Q;
  get_throttle_hover : Q;
  batt_current_max : Q;               (* _batt_current_max, A, 0 = disabled *)
  batt_current_time_constant : Q;
  batt_current : option Q;            (* battery.current_amps(...) *)
  batt_resistance : Q;                (* battery.get_resistance(...) *)
  batt_voltage : Q;                   (* battery.voltage(...) *)
  batt_voltage_min : Q;               (* thr_lin.get_battery_min_voltage() *)
  pwm_min : Z;                        (* get_pwm_output_min() *)
  pwm_max : Z                         (* get_pwm_output_max() *)
}.

Record Limits := {
  limit_roll : bool;
  limit_pitch : bool;
  limit_yaw : bool;
  limit_throttle_lower : bool;
  limit_throttle_upper : bool
}.

Definition all_limits (b : bool) : Limits := Build_Limits b b b b b.

(** The members the spool logic writes. *)
Record St := {
  spool_desired : DesiredSpoolState;
  spool_state : SpoolState;
  disarm_safe_timer : Q;
  spool_up_time : Q;
  spin_up_ratio : Q;
  throttle_thrust_max : Q;
  thrust_boost : bool;
  thrust_boost_ratio : Q;
  limit : Limits;
  throttle_limit : Q
}.

Definition set_spool_desired s v := Build_St v (spool_state s) (disarm_safe_timer s)
  (spool_up_time s) (spin_up_ratio s) (throttle_thrust_max s) (thrust_boost s)
  (thrust_boost_ratio s) (limit s) (throttle_limit s).
Definition set_spool_state s v := Build_St (spool_desired s) v (disarm_safe_timer s)
  (spool_up_time s) (spin_up_ratio s) (throttle_thrust_max s) (thrust_boost s)
  (thrust_boost_ratio s) (limit s) (throttle_limit s).
Definition set_disarm_safe_timer s v := Build_St (spool_desired s) (spool_state s) v
  (spool_up_time s) (spin_up_ratio s) (throttle_thrust_max s) (thrust_boost s)
  (thrust_boost_ratio s) (limit s) (throttle_limit s).
Definition set_spool_up_time s v := Build_St (spool_desired s) (spool_state s)
  (disarm_safe_timer s) v (spin_up_ratio s) (throttle_thrust_max s) (thrust_boost s)
  (thrust_boost_ratio s) (limit s) (throttle_limit s).
Definition set_spin_up_ratio s v := Build_St (spool_desired s) (spool_state s)
  (disarm_safe_timer s) (spool_up_time s) v (throttle_thrust_max s) (thrust_boost s)
  (thrust_boost_ratio s) (limit s) (throttle_limit s).
Definition set_throttle_thrust_max s v := Build_St (spool_desired s) (spool_state s)
  (disarm_safe_timer s) (spool_up_time s) (spin_up_ratio s) v (thrust_boost s)
  (thrust_boost_ratio s) (limit s) (throttle_limit s).
Definition set_thrust_boost s v := Build_St (spool_desired s) (spool_state s)
  (disarm_safe_timer s) (spool_up_time s) (spin_up_ratio s) (throttle_thrust_max s) v
  (thrust_boost_ratio s) (limit s) (throttle_limit s).
Definition set_thrust_boost_ratio s v := Build_St (spool_desired s) (spool_state s)
  (disarm_safe_timer s) (spool_up_time s) (spin_up_ratio s) (throttle_thrust_max s)
  (thrust_boost s) v (limit s) (throttle_limit s).
Definition set_limit s v := Build_St (spool_desired s) (spool_state s)
  (disarm_safe_timer s) (spool_up_time s) (spin_up_ratio s) (throttle_thrust_max s)
  (thrust_boost s) (thrust_boost_ratio s) v (throttle_limit s).
Definition set_throttle_limit s v := Build_St (spool_desired s) (spool_state s)
  (disarm_safe_timer s) (spool_up_time s) (spin_up_ratio s) (throttle_thrust_max s)
  (thrust_boost s) (thrust_boost_ratio s) (limit s) v.

(** ** Actuator slew limit: [set_actuator_with_slew] *)

(** If MOT_SLEW_UP_TIME is set, the highest allowed new output value,
    constrained 0.0~1.0; otherwise 1. *)
Definition output_slew_limit_up (c : Env) (actuator_output : Q) : Q :=
  if is_positive (slew_up_time c) then
    let output_delta_up_max := dt_s c / constrain_float (slew_up_time c) 0 (1#2) in
    constrain_float (actuator_output + output_delta_up_max) 0 1
  else 1.

(** If MOT_SLEW_DN_TIME is set, the lowest allowed new output value,
    constrained 0.0~1.0; otherwise 0. *)
Definition output_slew_limit_dn (c : Env) (actuator_output : Q) : Q :=
  if is_positive (slew_dn_time c) then
    let output_delta_dn_max := dt_s c / constrain_float (slew_dn_time c) 0 (1#2) in
    constrain_float (actuator_output - output_delta_dn_max) 0 1
  else 0.

(** The new value of [actuator_output] (a reference parameter in C++).
    The function does not read [_spool_state]. *)
Definition set_actuator_with_slew (c : Env) (actuator_output input : Q) : Q :=
  constrain_float input (output_slew_limit_dn c actuator_output)
                        (output_slew_limit_up c actuator_output).

(** ** Hover learning: [update_throttle_hover] *)

Inductive HoverLearn := HOVER_LEARN_DISABLED | HOVER_LEARN_ONLY | HOVER_LEARN_AND_SAVE.

Definition HoverLearn_eqb (a b : HoverLearn) : bool :=
  match a, b with
  | HOVER_LEARN_DISABLED, HOVER_LEARN_DISABLED
  | HOVER_LEARN_ONLY, HOVER_LEARN_ONLY
  | HOVER_LEARN_AND_SAVE, HOVER_LEARN_AND_SAVE => true
  | _, _ => false
  end.

(** Modelled from the spec: the header constants AP_MOTORS_THST_HOVER_MIN
    and AP_MOTORS_THST_HOVER_MAX, "throttle_hover in [0.125, 0.6875]". *)
Definition AP_MOTORS_THST_HOVER_MIN : Q := 1 # 8.
Definition AP_MOTORS_THST_HOVER_MAX : Q := 11 # 16.

(** [AP_MOTORS_THST_HOVER_TC] (the time constant tau_H, left open by the spec)
    is an argument. *)
Definition update_throttle_hover (hover_tc : Q) (learn : HoverLearn)
    (get_throttle throttle_hover dt : Q) : Q :=
  if negb (HoverLearn_eqb learn HOVER_LEARN_DISABLED) then
    constrain_float
      (throttle_hover + (dt / (dt + hover_tc)) * (get_throttle - throttle_hover))
      AP_MOTORS_THST_HOVER_MIN AP_MOTORS_THST_HOVER_MAX
  else throttle_hover.

(** ** Current limiter: [get_current_limit_max_throttle]

    The function reads and writes one member, [_throttle_limit]:
    [current_limit] maps its old value to (ceiling returned, new value). *)
Definition current_limit (e : Env) (throttle_limit : Q) : Q * Q :=
  if Qleb (batt_current_max e) 0 || negb (armed e) then (1, 1)
  else
    match batt_current e with
    | None => (1, 1)
    | Some batt_current =>
        let batt_resistance := batt_resistance e in
        if is_zero batt_resistance then (1, 1)
        else
          (* maximum current to prevent voltage sag below batt_voltage_min *)
          let batt_current_max' :=
            Qmin' (batt_current_max e)
                  (batt_current + (batt_voltage e - batt_voltage_min e) / batt_resistance) in
          let batt_current_ratio := batt_current / batt_current_max' in
          let throttle_limit := throttle_limit
                + (dt_s e / (dt_s e + batt_current_time_constant e))
                  * (1 - batt_current_ratio) in
          let throttle_limit := constrain_float throttle_limit (1#5) 1 in
          (get_throttle_hover e + (1 - get_throttle_hover e) * throttle_limit,
           throttle_limit)
    end.

Definition get_current_limit_max_throttle (e : Env) (s : St) : Q * St :=
  let '(v, tl) := current_limit e (throttle_limit s) in (v, set_throttle_limit s tl).

(** ** Spool logic: [output_logic] *)

Definition minimum_spool_time : Q := 1 # 20.

(** [_spool_down_time > minimum_spool_time ? _spool_down_time : _spool_up_time] *)
Definition spool_down_effective (e : Env) (s : St) : Q :=
  if Qltb minimum_spool_time (spool_down_time e) then spool_down_time e else spool_up_time s.

Definition logic_shut_down (e : Env) (s : St) : St :=
  let s := set_limit s (all_limits true) in
  if negb (DesiredSpoolState_eqb (spool_desired s) DS_SHUT_DOWN)
     && Qleb (safe_time e) (disarm_safe_timer s)
  then set_spool_state s GROUND_IDLE
  else
    let s := set_spin_up_ratio s 0 in
    let s := set_throttle_thrust_max s 0 in
    let s := set_thrust_boost s false in
    set_thrust_boost_ratio s 0.

Definition logic_ground_idle (e : Env) (s : St) : St :=
  let s := set_limit s (all_limits true) in
  let s :=
    match spool_desired s with
    | DS_SHUT_DOWN =>
        let spool_step := dt_s e / spool_down_effective e s in
        let s := set_spin_up_ratio s (spin_up_ratio s - spool_step) in
        if Qleb (spin_up_ratio s) 0
        then set_spool_state (set_spin_up_ratio s 0) SHUT_DOWN
        else s
    | DS_THROTTLE_UNLIMITED =>
        let spool_step := dt_s e / spool_up_time s in
        let s := set_spin_up_ratio s (spin_up_ratio s + spool_step) in
        if Qleb 1 (spin_up_ratio s) then
          let s := set_spin_up_ratio s 1 in
          if negb (spoolup_block e) then set_spool_state s SPOOLING_UP else s
        else s
    | DS_GROUND_IDLE =>
        let spool_up_step := dt_s e / spool_up_time s in
        let spool_down_step := dt_s e / spool_down_effective e s in
        let spin_up_armed_ratio :=
          if Qltb 0 (spin_min e) then spin_arm e / spin_min e else 0 in
        set_spin_up_ratio s
          (spin_up_ratio s + constrain_float (spin_up_armed_ratio - spin_up_ratio s)
                                             (- spool_down_step) spool_up_step)
    end in
  let s := set_throttle_thrust_max s 0 in
  let s := set_thrust_boost s false in
  set_thrust_boost_ratio s 0.

Definition logic_spooling_up (e : Env) (s : St) : St :=
  let spool_step := dt_s e / spool_up_time s in
  let s := set_limit s (all_limits false) in
  if negb (DesiredSpoolState_eqb (spool_desired s) DS_THROTTLE_UNLIMITED)
  then set_spool_state s SPOOLING_DOWN
  else
    let s := set_spin_up_ratio s 1 in
    let s := set_throttle_thrust_max s (throttle_thrust_max s + spool_step) in
    let '(clmt, s) := get_current_limit_max_throttle e s in
    let s :=
      if Qleb (Qmin' (get_throttle e) clmt) (throttle_thrust_max s) then
        let '(clmt2, s) := get_current_limit_max_throttle e s in
        set_spool_state (set_throttle_thrust_max s clmt2) THROTTLE_UNLIMITED
      else if Qltb (throttle_thrust_max s) 0 then set_throttle_thrust_max s 0
      else s in
    let s := set_thrust_boost s false in
    set_thrust_boost_ratio s (Qmax' 0 (thrust_boost_ratio s - spool_step)).

Definition logic_throttle_unlimited (e : Env) (s : St) : St :=
  let spool_step := dt_s e / spool_up_time s in
  let s := set_limit s (all_limits false) in
  if negb (DesiredSpoolState_eqb (spool_desired s) DS_THROTTLE_UNLIMITED)
  then set_spool_state s SPOOLING_DOWN
  else
    let s := set_spin_up_ratio s 1 in
    let '(clmt, s) := get_current_limit_max_throttle e s in
    let s := set_throttle_thrust_max s clmt in
    if thrust_boost s && negb (thrust_balanced e)
    then set_thrust_boost_ratio s (Qmin' 1 (thrust_boost_ratio s + spool_step))
    else set_thrust_boost_ratio s (Qmax' 0 (thrust_boost_ratio s - spool_step)).

Definition logic_spooling_down (e : Env) (s : St) : St :=
  let s := set_limit s (all_limits false) in
  if DesiredSpoolState_eqb (spool_desired s) DS_THROTTLE_UNLIMITED
  then set_spool_state s SPOOLING_UP
  else
    let s := set_spin_up_ratio s 1 in
    let spool_step := dt_s e / spool_down_effective e s in
    let s := set_throttle_thrust_max s (throttle_thrust_max s - spool_step) in
    let s := if Qleb (throttle_thrust_max s) 0 then set_throttle_thrust_max s 0 else s in
    let '(clmt, s) := get_current_limit_max_throttle e s in
    let s :=
      if Qleb clmt (throttle_thrust_max s) then
        let '(clmt2, s) := get_current_limit_max_throttle e s in
        set_throttle_thrust_max s clmt2
      else if is_zero (throttle_thrust_max s) then set_spool_state s GROUND_IDLE
      else s in
    set_thrust_boost_ratio s (Qmax' 0 (thrust_boost_ratio s - spool_step)).

(** [switch (_spool_state)] *)
Definition spool_switch (e : Env) (s : St) : St :=
  match spool_state s with
  | SHUT_DOWN => logic_shut_down e s
  | GROUND_IDLE => logic_ground_idle e s
  | SPOOLING_UP => logic_spooling_up e s
  | THROTTLE_UNLIMITED => logic_throttle_unlimited e s
  | SPOOLING_DOWN => logic_spooling_down e s
  end.

Definition output_logic (e : Env) (s : St) : St :=
  let s :=
    if armed e then
      if disarm_disable_pwm e && Qltb (disarm_safe_timer s) (safe_time e)
      then set_disarm_safe_timer s (disarm_safe_timer s + dt_s e)
      else set_disarm_safe_timer s (safe_time e)
    else set_disarm_safe_timer s 0 in
  let s :=
    if negb (armed e) || negb (interlock e)
    then set_spool_state (set_spool_desired s DS_SHUT_DOWN) SHUT_DOWN
    else s in
  let s :=
    if Qltb (spool_up_time s) minimum_spool_time
    then set_spool_up_time s minimum_spool_time else s in
  spool_switch e s.

(** ** PWM conversion: [output_to_pwm] (returns [int16_t]) *)
Definition output_to_pwm (e : Env) (s : St) (actuator : Q) : Z :=
  match spool_state s with
  | SHUT_DOWN =>
      if disarm_disable_pwm e && negb (armed e) then 0%Z else pwm_min e
  | _ =>
      float_to_int (inject_Z (pwm_min e) + inject_Z (pwm_max e - pwm_min e) * actuator)
  end.

(** ** Per-motor getters: [get_thrust], [get_raw_motor_throttle]

    The output reference [thr_out] is passed in and handed back, written or
    not. *)
Section MotorGetters.
Variable AP_MOTORS_MAX_NUM_MOTORS : nat.
Variable motor_enabled : nat -> bool.
Variable actuator : nat -> Q.                    (* _actuator[] *)
Variables thr_spin_min thr_spin_max : Q.        (* thr_lin.get_spin_min/max() *)
Variable actuator_to_thrust : Q -> Q.           (* thr_lin.actuator_to_thrust *)
Variable compensation_gain : Q.                 (* thr_lin.get_compensation_gain() *)

Definition get_thrust (motor_num : nat) (thr_out : Q) : bool * Q :=
  if Nat.leb AP_MOTORS_MAX_NUM_MOTORS motor_num || negb (motor_enabled motor_num)
  then (false, thr_out)
  else
    let a := constrain_float (actuator motor_num) thr_spin_min thr_spin_max in
    (true, actuator_to_thrust a / compensation_gain).

Definition get_raw_motor_throttle (motor_num : nat) (thr_out : Q) : bool * Q :=
  if Nat.leb AP_MOTORS_MAX_NUM_MOTORS motor_num || negb (motor_enabled motor_num)
  then (false, thr_out)
  else (true, constrain_float (actuator motor_num) 0 1).
End MotorGetters.

(** ** Throttle input filter: [update_throttle_filter]

    The filter objects come from AP_Filter and AP_Math: the low-pass filter
    is its output value and an [apply] step; the slew tracker is abstract. *)
Section ThrottleFilter.
Variable lpf_apply : Q -> Q -> Q -> Q.         (* output, sample, dt -> output *)
Variable SlewTracker : Type.
Variable slew_update : SlewTracker -> Q -> Z -> SlewTracker.
Variable slew_slope : SlewTracker -> Q.

Record ThrottleFilterSt := {
  throttle_filter : Q;                          (* _throttle_filter.get() *)
  throttle_slew : SlewTracker;
  throttle_slew_filter : Q;
  throttle_slew_rate : Q
}.

(** AP_Math's [is_equal] for floats: [fabsf(a - b) < FLT_EPSILON]. *)
Definition is_equal (a b : Q) : bool := Qltb (Qabs (a - b)) FLT_EPSILON.

Definition update_throttle_filter (e : Env) (throttle_in : Q) (micros : Z)
    (t : ThrottleFilterSt) : ThrottleFilterSt :=
  let last_thr := throttle_filter t in
  let f :=
    if armed e then
      let f := lpf_apply (throttle_filter t) throttle_in (dt_s e) in
      let f := if Qltb f 0 then 0 else f in
      if Qltb 1 f then 1 else f
    else 0 in
  let new_thr := f in
  let slew :=
    if negb (is_equal last_thr new_thr)
    then slew_update (throttle_slew t) new_thr micros
    else throttle_slew t in
  let rate := Qabs (slew_slope slew * 1000000) in
  let sf := lpf_apply (throttle_slew_filter t) rate (dt_s e) in
  {| throttle_filter := f; throttle_slew := slew;
     throttle_slew_filter := sf; throttle_slew_rate := sf |}.
End ThrottleFilter.

(** ** Motor-mask output: [output_motor_mask], the actuator it leaves for
    one motor [i] that is enabled and in [mask]. *)
Definition output_motor_mask_actuator (e : Env) (roll_factor : Q)
    (actuator_i thrust rudder_dt : Q) : Q :=
  if armed e && interlock e then
    let diff_thrust := roll_factor * rudder_dt * (1#2) in
    set_actuator_with_slew e actuator_i (thrust + diff_thrust)
  else 0.

(** ** Arming checks: [arming_checks], [check_mot_pwm_params] *)

Local Open Scope string_scope.

(** [AP_MOTORS_PARAM_PREFIX]: "Q_M_" in a plane build, "MOT_" otherwise. *)
Definition AP_MOTORS_PARAM_PREFIX (plane_build : bool) : string :=
  if plane_build then "Q_M_" else "MOT_".

(** C [snprintf(buffer, buflen, ...)]: with [buflen = 0] nothing is written,
    otherwise at most [buflen - 1] characters and the terminating NUL. *)
Definition snprintf (buflen : nat) (buffer msg : string) : string :=
  match buflen with
  | O => buffer
  | S n => substring 0 n msg
  end.

Fixpoint uint_to_string (d : uint) : string :=
  match d with
  | Nil => ""
  | D0 d => String "0"%char (uint_to_string d)
  | D1 d => String "1"%char (uint_to_string d)
  | D2 d => String "2"%char (uint_to_string d)
  | D3 d => String "3"%char (uint_to_string d)
  | D4 d => String "4"%char (uint_to_string d)
  | D5 d => String "5"%char (uint_to_string d)
  | D6 d => String "6"%char (uint_to_string d)
  | D7 d => String "7"%char (uint_to_string d)
  | D8 d => String "8"%char (uint_to_string d)
  | D9 d => String "9"%char (uint_to_string d)
  end.

(** [%u] *)
Definition fmt_u (n : nat) : string := uint_to_string (Nat.to_uint n).

(** [haystack] contains [needle] as a substring. *)
Fixpoint contains (needle haystack : string) : bool :=
  prefix needle haystack ||
  match haystack with
  | EmptyString => false
  | String _ rest => contains needle rest
  end.

Record MotParams := {
  plane_build : bool;
  p_spin_min : Q;                          (* thr_lin.get_spin_min() *)
  p_spin_arm : Q;                          (* _spin_arm *)
  p_pwm_min : Z;                           (* _pwm_min *)
  p_pwm_max : Z                            (* _pwm_max *)
}.

Definition check_mot_pwm_params (p : MotParams) : bool :=
  if Z.ltb (p_pwm_min p) 1 || Z.leb (p_pwm_max p) (p_pwm_min p) then false else true.

Section ArmingChecks.
Variable AP_MOTORS_MAX_NUM_MOTORS : nat.
Variable motor_enabled : nat -> bool.
(** [SRV_Channels::find_channel(SRV_Channels::get_motor_function(i), chan)] *)
Variable motor_has_channel : nat -> bool.
(** [AP_Motors::arming_checks(buflen, buffer)]: result and buffer after. *)
Variable base_arming_checks : nat -> string -> bool * string.
(** [%.2f] of a float *)
Variable fmt_2f : Q -> string.

(** The loop over motors: the first enabled motor without a channel. *)
Fixpoint first_unassigned_motor (l : list nat) : option nat :=
  match l with
  | [] => None
  | i :: l' =>
      if motor_enabled i && negb (motor_has_channel i) then Some i
      else first_unassigned_motor l'
  end.

Definition arming_checks (p : MotParams) (buflen : nat) (buffer : string)
    : bool * string :=
  let '(ok, buffer) := base_arming_checks buflen buffer in
  if negb ok then (false, buffer) else
  let pre := AP_MOTORS_PARAM_PREFIX (plane_build p) in
  match first_unassigned_motor (seq 0 AP_MOTORS_MAX_NUM_MOTORS) with
  | Some i =>
      (false, snprintf buflen buffer
                ("no SERVOx_FUNCTION set to Motor" ++ fmt_u (i + 1)))
  | None =>
      if Qltb (3#10) (p_spin_min p) then
        (false, snprintf buflen buffer
                  (pre ++ "SPIN_MIN too high " ++ fmt_2f (p_spin_min p) ++ " > 0.3"))
      else if Qltb (p_spin_min p) (p_spin_arm p) then
        (false, snprintf buflen buffer (pre ++ "SPIN_ARM > " ++ pre ++ "SPIN_MIN"))
      else if negb (check_mot_pwm_params p) then
        (false, snprintf buflen buffer
                  ("Check " ++ pre ++ "PWM_MIN and " ++ pre ++ "PWM_MAX"))
      else (true, buffer)
  end.
End ArmingChecks.
(** ** Remaining output stages *)

(** [output_boost_throttle]: the value sent with
    [set_output_scaled(k_boost_throttle, ...)]. *)
Definition output_boost_throttle (boost_scale get_throttle : Q) : Q :=
  if Qltb 0 boost_scale then
    let throttle := constrain_float (get_throttle * boost_scale) 0 1 in
    throttle * 1000
  else 0.

(** [update_external_limits]; [scripting] is [AP_SCRIPTING_ENABLED]. *)
Definition update_external_limits (scripting : bool) (limit external_limits : Limits)
    : Limits :=
  if scripting then
    {| limit_roll := limit_roll limit || limit_roll external_limits;
       limit_pitch := limit_pitch limit || limit_pitch external_limits;
       limit_yaw := limit_yaw limit || limit_yaw external_limits;
       limit_throttle_lower := limit_throttle_lower limit || limit_throttle_lower external_limits;
       limit_throttle_upper := limit_throttle_upper limit || limit_throttle_upper external_limits |}
  else limit.

Inductive PWMType :=
  NORMAL | ONESHOT | ONESHOT125 | BRUSHED | DSHOT150 | DSHOT300 | DSHOT600 | DSHOT1200
| PWM_RANGE | PWM_ANGLE.

Definition PWMType_eqb (a b : PWMType) : bool :=
  match a, b with
  | NORMAL, NORMAL | ONESHOT, ONESHOT | ONESHOT125, ONESHOT125 | BRUSHED, BRUSHED
  | DSHOT150, DSHOT150 | DSHOT300, DSHOT300 | DSHOT600, DSHOT600
  | DSHOT1200, DSHOT1200 | PWM_RANGE, PWM_RANGE | PWM_ANGLE, PWM_ANGLE => true
  | _, _ => false
  end.

(** [update_throttle_range]: the values of [_pwm_min] and [_pwm_max]
    afterwards; [have_digital_outputs] is
    [SRV_Channels::have_digital_outputs(get_motor_mask())]. *)
Definition update_throttle_range (have_digital_outputs : bool) (pwm_type : PWMType)
    (pwm_min pwm_max : Z) : Z * Z :=
  if have_digital_outputs || PWMType_eqb pwm_type PWM_RANGE
     || PWMType_eqb pwm_type PWM_ANGLE
  then (1000%Z, 2000%Z)
  else (pwm_min, pwm_max).

(** Output writes: [rc_write(chan, pwm)] and the two bicopter throttle
    channels written with [SRV_Channels::set_output_pwm]. *)
Inductive PwmWrite :=
| RcWrite (chan : nat) (pwm : Z)
| ThrottleRightWrite (pwm : Z)
| ThrottleLeftWrite (pwm : Z).

(** [set_throttle_passthrough_for_esc_calibration]: the writes it makes.
    The conversion to [uint16_t pwm_out] truncates toward zero; it is exact
    for values in 0..65535 (outside that range C++ leaves it undefined). *)
Definition set_throttle_passthrough_for_esc_calibration (max_motors : nat)
    (motor_enabled : nat -> bool) (e : Env) (throttle_input : Q) : list PwmWrite :=
  if armed e then
    let pwm_out := float_to_int (inject_Z (pwm_min e)
                     + constrain_float throttle_input 0 1
                       * inject_Z (pwm_max e - pwm_min e)) in
    map (fun i => RcWrite i pwm_out) (filter motor_enabled (seq 0 max_motors))
      ++ [ThrottleRightWrite pwm_out; ThrottleLeftWrite pwm_out]
  else [].

(** Conversion of an [int] to [int16_t]: wrap-around modulo 2^16. *)
Definition wrap_int16 (z : Z) : Z := ((z + 32768) mod 65536 - 32768)%Z.

(** [(mask & (1U << i)) != 0] *)
Definition motor_in_mask (mask : Z) (i : nat) : bool :=
  negb (Z.eqb (Z.land mask (Z.shiftl 1 (Z.of_nat i))) 0).

(** [output_motor_mask]: the loop over motors.  It threads the actuator
    array [_actuator[]] and the list of writes made so far. *)
Section OutputMotorMask.
Variable e : Env.
Variable motor_enabled : nat -> bool.
Variable roll_factor : nat -> Q.                 (* get_roll_factor(i) *)
Variables (thrust : Q) (mask : Z) (rudder_dt : Q).

(** [int16_t pwm_output = pwm_min + pwm_range * _actuator[i]]: the conversion
    truncates toward zero and is exact for values in the [int16_t] range. *)
Definition motor_mask_pwm (a : Q) : Z :=
  let pwm_range := wrap_int16 (pwm_max e - pwm_min e) in
  float_to_int (inject_Z (pwm_min e) + inject_Z pwm_range * a).

Fixpoint output_motor_mask_loop (l : list nat) (actuator : nat -> Q)
    (writes : list PwmWrite) : (nat -> Q) * list PwmWrite :=
  match l with
  | [] => (actuator, writes)
  | i :: l' =>
      if motor_enabled i && motor_in_mask mask i then
        let a := output_motor_mask_actuator e (roll_factor i) (actuator i) thrust rudder_dt in
        let actuator' := fun j => if Nat.eqb j i then a else actuator j in
        output_motor_mask_loop l' actuator' (writes ++ [RcWrite i (motor_mask_pwm a)])
      else output_motor_mask_loop l' actuator writes
  end.

(** Returns [_motor_mask_override], the new [_actuator[]] and the writes. *)
Definition output_motor_mask (max_motors : nat) (actuator : nat -> Q)
    : Z * (nat -> Q) * list PwmWrite :=
  let '(act, writes) := output_motor_mask_loop (seq 0 max_motors) actuator [] in
  (mask, act, writes).
End OutputMotorMask.

(** [Log_Write]: the [mot_fail_flags] byte,
    [(uint8_t)(_thrust_boost | (_thrust_balanced << 1U))]. *)
Definition mot_fail_flags (thrust_boost thrust_balanced : bool) : Z :=
  Z.land (Z.lor (Z.b2z thrust_boost) (Z.shiftl (Z.b2z thrust_balanced) 1)) 255.

(** [actuator_spin_up_to_ground_idle] *)
Definition actuator_spin_up_to_ground_idle (e : Env) (s : St) : Q :=
  constrain_float (spin_up_ratio s) 0 1 * spin_min e.

(** ** Example inputs *)

Definition env_example : Env := {|
  armed := true; interlock := true; dt_s := 1#400; disarm_disable_pwm := false;
  safe_time := 1; spool_down_time := 0; slew_up_time := 1#10; slew_dn_time := 0;
  spin_arm := 1#10; spin_min := 15#100; spoolup_block := false; thrust_balanced := true;
  get_throttle := 1#2; get_throttle_hover := 1#2; batt_current_max := 60;
  batt_current_time_constant := 5; batt_current := Some 70; batt_resistance := 1#100;
  batt_voltage := 14; batt_voltage_min := 13; pwm_min := 1000; pwm_max := 2000 |}.

Definition st_example (ss : SpoolState) (ds : DesiredSpoolState) : St := {|
  spool_desired := ds; spool_state := ss; disarm_safe_timer := 0;
  spool_up_time := 1#2; spin_up_ratio := 1; throttle_thrust_max := 2#5;
  thrust_boost := false; thrust_boost_ratio := 0; limit := all_limits true;
  throttle_limit := 1 |}.


(** The same inputs with one reading or parameter changed. *)
Definition env_with (e : Env) (spoolup_block' disarm_disable_pwm' : bool)
    (batt_current' : option Q) : Env := {|
  armed := armed e; interlock := interlock e; dt_s := dt_s e;
  disarm_disable_pwm := disarm_disable_pwm'; safe_time := safe_time e;
  spool_down_time := spool_down_time e; slew_up_time := slew_up_time e;
  slew_dn_time := slew_dn_time e; spin_arm := spin_arm e; spin_min := spin_min e;
  spoolup_block := spoolup_block'; thrust_balanced := thrust_balanced e;
  get_throttle := get_throttle e; get_throttle_hover := get_throttle_hover e;
  batt_current_max := batt_current_max e;
  batt_current_time_constant := batt_current_time_constant e;
  batt_current := batt_current'; batt_resistance := batt_resistance e;
  batt_voltage := batt_voltage e; batt_voltage_min := batt_voltage_min e;
  pwm_min := pwm_min e; pwm_max := pwm_max e |}.

Lemma Qltb_true x y : Qltb x y = true <-> x < y.
Proof.
  unfold Qltb. destruct (Qle_bool y x) eqn:E; simpl.
  - apply Qle_bool_iff in E. split; [discriminate | intro H; exfalso].
    apply (Qlt_not_le x y H E).
  - split; [intros _ | reflexivity].
    apply Qnot_le_lt. intro H. apply Qle_bool_iff in H. congruence.
Qed.

Lemma Qltb_false x y : Qltb x y = false <-> y <= x.
Proof.
  unfold Qltb. destruct (Qle_bool y x) eqn:E; simpl.
  - apply Qle_bool_iff in E. tauto.
  - split; [discriminate | intro H; apply Qle_bool_iff in H; congruence].
Qed.

Ltac qcase E :=
  match goal with
  | |- context [Qltb ?a ?b] =>
      let E := fresh E in destruct (Qltb a b) eqn:E;
      [apply Qltb_true in E | apply Qltb_false in E]
  end.

Lemma constrain_float_bounds amt low high :
  low <= high -> low <= constrain_float amt low high <= high.
Proof.
  intro H. unfold constrain_float.
  qcase E1; [split; [apply Qle_refl | exact H] |].
  qcase E2; [split; [exact H | apply Qle_refl] |].
  split; assumption.
Qed.

Lemma constrain_float_le_high amt low high :
  low <= high -> constrain_float amt low high <= high.
Proof. intro H. apply (constrain_float_bounds amt low high H). Qed.

Lemma constrain_float_le_amt amt low high :
  low <= amt -> constrain_float amt low high <= amt.
Proof.
  intro H. unfold constrain_float.
  qcase E1; [exact H |].
  qcase E2; [apply Qlt_le_weak; exact E2 | apply Qle_refl].
Qed.

Lemma constrain_float_ge_amt amt low high :
  amt <= high -> amt <= constrain_float amt low high.
Proof.
  intro H. unfold constrain_float.
  qcase E1; [apply Qlt_le_weak; exact E1 |].
  qcase E2; [exact H | apply Qle_refl].
Qed.

(** ** Spool logic: what each state can leave behind *)

Lemma current_limit_state e s :
  spool_state (snd (get_current_limit_max_throttle e s)) = spool_state s.
Proof.
  unfold get_current_limit_max_throttle. destruct (current_limit e _). reflexivity.
Qed.

Lemma logic_shut_down_inv e s :
  spool_state (logic_shut_down e s) = SHUT_DOWN ->
  spin_up_ratio (logic_shut_down e s) = 0 /\ throttle_thrust_max (logic_shut_down e s) = 0.
Proof.
  unfold logic_shut_down; simpl.
  destruct (_ && _); simpl; [discriminate | auto].
Qed.

Lemma logic_ground_idle_inv e s :
  spool_state s = GROUND_IDLE ->
  spool_state (logic_ground_idle e s) = SHUT_DOWN ->
  spin_up_ratio (logic_ground_idle e s) = 0 /\ throttle_thrust_max (logic_ground_idle e s) = 0.
Proof.
  intros Hs. unfold logic_ground_idle; simpl.
  destruct (spool_desired s); simpl.
  - destruct (Qleb _ 0); simpl; [auto | rewrite Hs; discriminate].
  - rewrite Hs; discriminate.
  - destruct (Qleb 1 _); simpl; [destruct (negb _); simpl; [discriminate|] |];
      rewrite Hs; discriminate.
Qed.

Ltac split_branches :=
  repeat (simpl; match goal with
  | |- context [if ?c then _ else _] => destruct c
  | |- context [current_limit ?e ?t] => destruct (current_limit e t)
  end); simpl.

Lemma logic_spooling_up_not_shut_down e s :
  spool_state s = SPOOLING_UP -> spool_state (logic_spooling_up e s) <> SHUT_DOWN.
Proof.
  intros Hs. unfold logic_spooling_up, get_current_limit_max_throttle.
  split_branches; rewrite ?Hs; discriminate.
Qed.

Lemma logic_throttle_unlimited_not_shut_down e s :
  spool_state s = THROTTLE_UNLIMITED ->
  spool_state (logic_throttle_unlimited e s) <> SHUT_DOWN.
Proof.
  intros Hs. unfold logic_throttle_unlimited, get_current_limit_max_throttle.
  split_branches; rewrite ?Hs; discriminate.
Qed.

Lemma logic_spooling_down_not_shut_down e s :
  spool_state s = SPOOLING_DOWN -> spool_state (logic_spooling_down e s) <> SHUT_DOWN.
Proof.
  intros Hs. unfold logic_spooling_down, get_current_limit_max_throttle.
  split_branches; rewrite ?Hs; discriminate.
Qed.

Lemma spool_switch_shut_down_inv e s :
  spool_state (spool_switch e s) = SHUT_DOWN ->
  spin_up_ratio (spool_switch e s) = 0 /\ throttle_thrust_max (spool_switch e s) = 0.
Proof.
  unfold spool_switch. destruct (spool_state s) eqn:Hs.
  - apply logic_shut_down_inv.
  - apply logic_ground_idle_inv; exact Hs.
  - intro H. exfalso. exact (logic_spooling_up_not_shut_down e s Hs H).
  - intro H. exfalso. exact (logic_throttle_unlimited_not_shut_down e s Hs H).
  - intro H. exfalso. exact (logic_spooling_down_not_shut_down e s Hs H).
Qed.

(** ** C1 *)

(** C1: for every tick and every input, when [output_logic] leaves
    [spool_state = SHUT_DOWN] it also leaves [spin_up_ratio = 0] and
    [throttle_thrust_max = 0]. *)
Theorem output_logic_shut_down_invariant (e : Env) (s : St) :
  spool_state (output_logic e s) = SHUT_DOWN ->
  spin_up_ratio (output_logic e s) = 0 /\ throttle_thrust_max (output_logic e s) = 0.
Proof.
  unfold output_logic. apply spool_switch_shut_down_inv.
Qed.

Lemma output_logic_shut_down_invariant_witness :
  let e := {| armed := false; interlock := true; dt_s := 1#400; disarm_disable_pwm := false;
    safe_time := 1; spool_down_time := 0; slew_up_time := 0; slew_dn_time := 0;
    spin_arm := 1#10; spin_min := 15#100; spoolup_block := false; thrust_balanced := true;
    get_throttle := 1#2; get_throttle_hover := 1#2; batt_current_max := 0;
    batt_current_time_constant := 5; batt_current := None; batt_resistance := 0;
    batt_voltage := 14; batt_voltage_min := 13; pwm_min := 1000; pwm_max := 2000 |} in
  let s := st_example THROTTLE_UNLIMITED DS_THROTTLE_UNLIMITED in
  spool_state (output_logic e s) = SHUT_DOWN /\
  spin_up_ratio (output_logic e s) = 0 /\ throttle_thrust_max (output_logic e s) = 0.
Proof.
  intros e s. split.
  - vm_compute. reflexivity.
  - apply output_logic_shut_down_invariant. vm_compute. reflexivity.
Defined.

(** ** Slew limit *)

Lemma constrain_half_pos x : FLT_EPSILON <= x ->
  0 < constrain_float x 0 (1#2).
Proof.
  intro H. unfold constrain_float, FLT_EPSILON in *.
  qcase E1; [exfalso; lra |]. qcase E2; lra.
Qed.

Lemma constrain_half_small x : 0 < x -> x < FLT_EPSILON ->
  constrain_float x 0 (1#2) == x.
Proof.
  intros H1 H2. unfold constrain_float, FLT_EPSILON in *.
  qcase E1; [exfalso; lra |]. qcase E2; [exfalso; lra | reflexivity].
Qed.

Lemma div_nonneg a c : 0 <= a -> 0 < c -> 0 <= a / c.
Proof. intros Ha Hc. apply Qle_shift_div_l; [exact Hc | lra]. Qed.

Lemma slew_limit_up_props c a :
  0 <= a <= 1 -> 0 <= dt_s c ->
  a <= output_slew_limit_up c a <= 1 /\
  (is_positive (slew_up_time c) = true ->
   output_slew_limit_up c a - a <= dt_s c / constrain_float (slew_up_time c) 0 (1#2)).
Proof.
  intros Ha Hdt. unfold output_slew_limit_up.
  destruct (is_positive (slew_up_time c)) eqn:P; [| split; [lra | discriminate]].
  unfold is_positive, Qleb in P. apply Qle_bool_iff in P.
  pose proof (div_nonneg _ _ Hdt (constrain_half_pos _ P)) as Hd.
  set (d := dt_s c / _) in *.
  assert (0 <= 1) as H01 by lra.
  pose proof (constrain_float_bounds (a + d) 0 1 H01).
  pose proof (constrain_float_ge_amt (a + d) 0 1).
  pose proof (constrain_float_le_amt (a + d) 0 1).
  unfold constrain_float in *.
  qcase E1; [lra |]. qcase E2; split; intros; lra.
Qed.

Lemma slew_limit_dn_props c a :
  0 <= a <= 1 -> 0 <= dt_s c ->
  0 <= output_slew_limit_dn c a <= a /\
  (is_positive (slew_dn_time c) = true ->
   a - output_slew_limit_dn c a <= dt_s c / constrain_float (slew_dn_time c) 0 (1#2)).
Proof.
  intros Ha Hdt. unfold output_slew_limit_dn.
  destruct (is_positive (slew_dn_time c)) eqn:P; [| split; [lra | discriminate]].
  unfold is_positive, Qleb in P. apply Qle_bool_iff in P.
  pose proof (div_nonneg _ _ Hdt (constrain_half_pos _ P)) as Hd.
  set (d := dt_s c / _) in *.
  unfold constrain_float.
  qcase E1; [split; intros; lra |]. qcase E2; split; intros; lra.
Qed.

(** A slew time in (0, FLT_EPSILON) is no limit at all; the bound
    dt / slew_time then exceeds 1 as soon as dt >= FLT_EPSILON. *)
Lemma tiny_slew_bound t dt :
  0 < t -> is_positive t = false -> FLT_EPSILON <= dt ->
  1 <= dt / constrain_float t 0 (1#2).
Proof.
  intros Ht P Hdt. unfold is_positive, Qleb in P.
  assert (t < FLT_EPSILON) as Hlt.
  { apply Qnot_le_lt. intro H. apply Qle_bool_iff in H. congruence. }
  pose proof (constrain_half_small t Ht Hlt) as Hc.
  apply Qle_shift_div_l; [rewrite Hc; exact Ht | rewrite Hc; lra].
Qed.

(** ** C6 *)

(** C6: for every previous [actuator_output] in [0,1] and every proposed
    input (with a loop period [dt_s >= FLT_EPSILON]), [set_actuator_with_slew]
    keeps the result in [0,1]; with [slew_up_time > 0] the increase is at most
    [dt / constrain(slew_up_time, 0, 0.5)], with [slew_dn_time > 0] the
    decrease is at most [dt / constrain(slew_dn_time, 0, 0.5)]. *)
Theorem set_actuator_with_slew_bounds (c : Env) (a input : Q) :
  0 <= a <= 1 -> FLT_EPSILON <= dt_s c ->
  0 <= set_actuator_with_slew c a input <= 1 /\
  (0 < slew_up_time c ->
   set_actuator_with_slew c a input - a
     <= dt_s c / constrain_float (slew_up_time c) 0 (1#2)) /\
  (0 < slew_dn_time c ->
   a - set_actuator_with_slew c a input
     <= dt_s c / constrain_float (slew_dn_time c) 0 (1#2)).
Proof.
  intros Ha Hdt.
  assert (0 <= dt_s c) as Hdt0 by (unfold FLT_EPSILON in Hdt; lra).
  destruct (slew_limit_up_props c a Ha Hdt0) as [[Hu1 Hu2] Hu].
  destruct (slew_limit_dn_props c a Ha Hdt0) as [[Hd1 Hd2] Hd].
  unfold set_actuator_with_slew.
  set (U := output_slew_limit_up c a) in *.
  set (L := output_slew_limit_dn c a) in *.
  assert (L <= U) as HLU by lra.
  destruct (constrain_float_bounds input L U HLU) as [Hr1 Hr2].
  set (r := constrain_float input L U) in *.
  split; [lra | split].
  - intro Hpos. destruct (is_positive (slew_up_time c)) eqn:P.
    + specialize (Hu eq_refl). lra.
    + pose proof (tiny_slew_bound _ _ Hpos P Hdt). lra.
  - intro Hpos. destruct (is_positive (slew_dn_time c)) eqn:P.
    + specialize (Hd eq_refl). lra.
    + pose proof (tiny_slew_bound _ _ Hpos P Hdt). lra.
Qed.

Lemma set_actuator_with_slew_bounds_witness :
  0 <= (2#10) <= 1 /\ FLT_EPSILON <= dt_s env_example /\
  0 <= set_actuator_with_slew env_example (2#10) (9#10) <= 1 /\
  set_actuator_with_slew env_example (2#10) (9#10) == 9#40.
Proof.
  split; [split; vm_compute; discriminate |].
  split; [vm_compute; discriminate |].
  split.
  - apply (set_actuator_with_slew_bounds env_example (2#10) (9#10));
      vm_compute; try split; discriminate.
  - vm_compute. reflexivity.
Defined.

(** ** C7 *)

(** C7 (the code misses it): in SHUT_DOWN the slew limiter is not bypassed.
    [set_actuator_with_slew] documents "If spool mode is shutdown, no slew
    limit is applied" but never reads [_spool_state]; [output_motor_mask]
    calls it whenever armed and interlocked, also in SHUT_DOWN.  With
    [slew_dn_time = 0.5], [dt = 0.0025], a previous actuator of 1 and a
    zero thrust request the actuator becomes 0.995, not 0. *)
Theorem set_actuator_with_slew_shut_down_not_bypassed :
  let e := {| armed := true; interlock := true; dt_s := 1#400; disarm_disable_pwm := false;
    safe_time := 0; spool_down_time := 0; slew_up_time := 0; slew_dn_time := 1#2;
    spin_arm := 1#10; spin_min := 15#100; spoolup_block := false; thrust_balanced := true;
    get_throttle := 0; get_throttle_hover := 1#2; batt_current_max := 0;
    batt_current_time_constant := 5; batt_current := None; batt_resistance := 0;
    batt_voltage := 14; batt_voltage_min := 13; pwm_min := 1000; pwm_max := 2000 |} in
  let s := st_example SHUT_DOWN DS_SHUT_DOWN in
  spool_state (output_logic e s) = SHUT_DOWN /\
  output_motor_mask_actuator e 0 1 0 0 == 199#200 /\
  ~ (set_actuator_with_slew e 1 0 == 0).
Proof.
  intros e s. split; [vm_compute; reflexivity |].
  split; [vm_compute; reflexivity |].
  vm_compute. discriminate.
Qed.

(** ** C2 *)

Lemma float_to_int_between (a b : Z) (q : Q) :
  inject_Z a <= q <= inject_Z b -> (a <= float_to_int q <= b)%Z.
Proof.
  intros [Ha Hb]. unfold float_to_int.
  destruct (Qle_bool 0 q).
  - pose proof (Qfloor_resp_le _ _ Ha) as H1. pose proof (Qfloor_resp_le _ _ Hb) as H2.
    rewrite Qfloor_Z in H1, H2. lia.
  - assert (- q <= inject_Z (- a)) as H1 by (rewrite inject_Z_opp; lra).
    assert (inject_Z (- b) <= - q) as H2 by (rewrite inject_Z_opp; lra).
    apply Qfloor_resp_le in H1, H2. rewrite Qfloor_Z in H1, H2. lia.
Qed.

Lemma pwm_formula_between (lo hi : Z) (a : Q) :
  (lo <= hi)%Z -> 0 <= a <= 1 ->
  inject_Z lo <= inject_Z lo + inject_Z (hi - lo) * a <= inject_Z hi.
Proof.
  intros H [Ha0 Ha1].
  assert (0 <= inject_Z (hi - lo)) as Hd.
  { change 0 with (inject_Z 0). rewrite <- Zle_Qle. lia. }
  assert (inject_Z hi == inject_Z lo + inject_Z (hi - lo)) as Hs.
  { unfold Z.sub. rewrite inject_Z_plus, inject_Z_opp. ring. }
  rewrite Hs. split; nra.
Qed.

(** C2 fails as stated: [output_to_pwm] returns an [int16_t], so the float
    [pwm_min + (pwm_max - pwm_min) * actuator] is truncated: at
    [pwm_min = 1000], [pwm_max = 1001], [actuator = 0.5] outside SHUT_DOWN
    it returns 1000, not 1000.5. *)
Lemma output_to_pwm_truncates :
  let e := {| armed := true; interlock := true; dt_s := 1#400; disarm_disable_pwm := false;
    safe_time := 0; spool_down_time := 0; slew_up_time := 0; slew_dn_time := 0;
    spin_arm := 1#10; spin_min := 15#100; spoolup_block := false; thrust_balanced := true;
    get_throttle := 0; get_throttle_hover := 1#2; batt_current_max := 0;
    batt_current_time_constant := 5; batt_current := None; batt_resistance := 0;
    batt_voltage := 14; batt_voltage_min := 13; pwm_min := 1000; pwm_max := 1001 |} in
  let s := st_example GROUND_IDLE DS_GROUND_IDLE in
  output_to_pwm e s (1#2) = 1000%Z /\
  ~ (inject_Z (output_to_pwm e s (1#2))
     == inject_Z (pwm_min e) + inject_Z (pwm_max e - pwm_min e) * (1#2)).
Proof.
  intros e s. split; [vm_compute; reflexivity |]. vm_compute. discriminate.
Qed.

(** C2 (amended): for every actuator value in [0,1], [output_to_pwm] returns
    0 in SHUT_DOWN when [disarm_disable_pwm] is set and the motors are
    disarmed, [pwm_min] otherwise in SHUT_DOWN, and in every other spool
    state [pwm_min + (pwm_max - pwm_min) * actuator] truncated toward zero
    to an integer; when [pwm_min <= pwm_max] the result lies in
    {0} U [pwm_min, pwm_max]. *)
Theorem output_to_pwm_spec (e : Env) (s : St) (actuator : Q) :
  0 <= actuator <= 1 ->
  (spool_state s = SHUT_DOWN -> disarm_disable_pwm e = true -> armed e = false ->
   output_to_pwm e s actuator = 0%Z) /\
  (spool_state s = SHUT_DOWN -> (disarm_disable_pwm e = false \/ armed e = true) ->
   output_to_pwm e s actuator = pwm_min e) /\
  (spool_state s <> SHUT_DOWN ->
   output_to_pwm e s actuator =
     float_to_int (inject_Z (pwm_min e) + inject_Z (pwm_max e - pwm_min e) * actuator)) /\
  ((pwm_min e <= pwm_max e)%Z ->
   output_to_pwm e s actuator = 0%Z \/
   (pwm_min e <= output_to_pwm e s actuator <= pwm_max e)%Z).
Proof.
  intros Ha. unfold output_to_pwm.
  destruct (spool_state s) eqn:Hs.
  1: {
    split; [intros _ -> ->; reflexivity |].
    split; [intros _ [-> | ->]; [reflexivity | rewrite andb_false_r; reflexivity] |].
    split; [intro H; exfalso; apply H; reflexivity |].
    intro Hp. destruct (_ && _); [left; reflexivity | right; lia]. }
  all: split; [discriminate |]; split; [discriminate |].
  all: split; [reflexivity |].
  all: intro Hp; right; apply float_to_int_between, pwm_formula_between; assumption.
Qed.

Lemma output_to_pwm_spec_witness :
  let s := st_example THROTTLE_UNLIMITED DS_THROTTLE_UNLIMITED in
  output_to_pwm env_example s (1#2) = 1500%Z /\
  (output_to_pwm env_example s (1#2) = 0%Z \/
   (pwm_min env_example <= output_to_pwm env_example s (1#2) <= pwm_max env_example)%Z).
Proof.
  intros s. split; [vm_compute; reflexivity |].
  refine (proj2 (proj2 (proj2 (output_to_pwm_spec env_example s (1#2) _))) _).
  - split; vm_compute; discriminate.
  - vm_compute. discriminate.
Defined.

(** ** C5 *)

Lemma is_zero_of_eq0 r : r == 0 -> is_zero r = true.
Proof.
  intro H. unfold is_zero. apply Qltb_true.
  pose proof (Qabs_wd _ _ H) as HA. simpl in HA. unfold FLT_EPSILON. lra.
Qed.

(** C5: when the vehicle is disarmed, [batt_current_max <= 0], no current
    reading is available or the battery resistance is zero,
    [get_current_limit_max_throttle] returns 1 and resets [_throttle_limit]
    to 1.  In every case it writes no other member, leaves [_throttle_limit]
    in [0.2, 1] and returns [throttle_hover + (1 - throttle_hover) *
    throttle_limit], which lies in [throttle_hover, 1] when
    [throttle_hover <= 1]. *)
Theorem get_current_limit_max_throttle_spec (e : Env) (s : St) :
  let '(v, s') := get_current_limit_max_throttle e s in
  ((batt_current_max e <= 0 \/ armed e = false \/ batt_current e = None
    \/ batt_resistance e == 0) ->
   v = 1 /\ throttle_limit s' = 1) /\
  s' = set_throttle_limit s (throttle_limit s') /\
  (1#5) <= throttle_limit s' <= 1 /\
  v == get_throttle_hover e + (1 - get_throttle_hover e) * throttle_limit s' /\
  (get_throttle_hover e <= 1 -> get_throttle_hover e <= v <= 1).
Proof.
  unfold get_current_limit_max_throttle, current_limit.
  set (h := get_throttle_hover e).
  assert (forall P : Prop,
    (P -> 1 = 1 /\ throttle_limit (set_throttle_limit s 1) = 1) /\
    set_throttle_limit s 1 = set_throttle_limit s (throttle_limit (set_throttle_limit s 1)) /\
    (1#5) <= throttle_limit (set_throttle_limit s 1) <= 1 /\
    1 == h + (1 - h) * throttle_limit (set_throttle_limit s 1) /\
    (h <= 1 -> h <= 1 <= 1)) as Hone.
  { intro P. simpl. split; [auto |]. split; [reflexivity |].
    split; [split; vm_compute; discriminate |]. split; [ring | intro; lra]. }
  destruct (Qleb (batt_current_max e) 0 || negb (armed e)) eqn:G; [apply Hone |].
  apply orb_false_iff in G. destruct G as [G1 G2].
  unfold Qleb in G1. apply negb_false_iff in G2.
  destruct (batt_current e) as [cur |] eqn:Ec; [| apply Hone].
  destruct (is_zero (batt_resistance e)) eqn:Z; [apply Hone |].
  set (tl := constrain_float _ (1#5) 1).
  assert ((1#5) <= tl <= 1) as Htl.
  { apply constrain_float_bounds. vm_compute. discriminate. }
  simpl. split.
  - intros [H | [H | [H | H]]].
    + apply Qle_bool_iff in H. congruence.
    + congruence.
    + discriminate.
    + rewrite (is_zero_of_eq0 _ H) in Z. discriminate.
  - split; [reflexivity |]. split; [exact Htl |]. split; [reflexivity |].
    intro Hh. split; nra.
Qed.

Lemma get_current_limit_max_throttle_spec_witness :
  let s := st_example SPOOLING_UP DS_THROTTLE_UNLIMITED in
  let v := fst (get_current_limit_max_throttle env_example s) in
  get_throttle_hover env_example <= 1 /\
  get_throttle_hover env_example <= v <= 1 /\ v < 1.
Proof.
  intros s v.
  pose proof (get_current_limit_max_throttle_spec env_example s) as H.
  unfold v. destruct (get_current_limit_max_throttle env_example s) as [v0 s0] eqn:E.
  simpl. destruct H as (_ & _ & _ & _ & H).
  assert (get_throttle_hover env_example <= 1) as Hh by (vm_compute; discriminate).
  split; [exact Hh | split; [exact (H Hh) |]].
  assert (v0 = fst (get_current_limit_max_throttle env_example s)) as -> by (rewrite E; reflexivity).
  vm_compute. reflexivity.
Defined.

(** ** C9 *)

(** C9: for every [dt >= 0], throttle and starting [throttle_hover] in
    [0.125, 0.6875], [update_throttle_hover] leaves [throttle_hover] in
    [0.125, 0.6875], and leaves it unchanged when learning is disabled. *)
Theorem update_throttle_hover_bounds (hover_tc : Q) (learn : HoverLearn)
    (thr h dt : Q) :
  0 <= dt -> AP_MOTORS_THST_HOVER_MIN <= h <= AP_MOTORS_THST_HOVER_MAX ->
  AP_MOTORS_THST_HOVER_MIN <= update_throttle_hover hover_tc learn thr h dt
    <= AP_MOTORS_THST_HOVER_MAX /\
  (learn = HOVER_LEARN_DISABLED -> update_throttle_hover hover_tc learn thr h dt = h).
Proof.
  intros _ Hh. unfold update_throttle_hover.
  destruct learn; simpl.
  - split; [exact Hh | reflexivity].
  - split; [apply constrain_float_bounds; vm_compute; discriminate | discriminate].
  - split; [apply constrain_float_bounds; vm_compute; discriminate | discriminate].
Qed.

Lemma update_throttle_hover_bounds_witness :
  AP_MOTORS_THST_HOVER_MIN
    <= update_throttle_hover 2 HOVER_LEARN_ONLY (9#10) (1#2) (1#100)
    <= AP_MOTORS_THST_HOVER_MAX.
Proof.
  apply (update_throttle_hover_bounds 2 HOVER_LEARN_ONLY (9#10) (1#2) (1#100)).
  - vm_compute. discriminate.
  - split; vm_compute; discriminate.
Defined.

(** ** C10 *)

(** C10: for a [motor_num >= AP_MOTORS_MAX_NUM_MOTORS] or a disabled motor,
    [get_thrust] and [get_raw_motor_throttle] return false and leave the
    output reference as it was; otherwise [get_raw_motor_throttle] writes the
    actuator clamped to [0,1] and [get_thrust] writes
    [actuator_to_thrust(constrain(actuator, spin_min, spin_max))] divided by
    the compensation gain. *)
Theorem get_thrust_and_raw_spec (max_motors : nat) (motor_enabled : nat -> bool)
    (actuator : nat -> Q) (smin smax : Q) (actuator_to_thrust : Q -> Q) (gain : Q)
    (motor_num : nat) (thr_out : Q) :
  (((max_motors <= motor_num)%nat \/ motor_enabled motor_num = false) ->
   get_thrust max_motors motor_enabled actuator smin smax actuator_to_thrust gain
     motor_num thr_out = (false, thr_out) /\
   get_raw_motor_throttle max_motors motor_enabled actuator motor_num thr_out
     = (false, thr_out)) /\
  ((motor_num < max_motors)%nat -> motor_enabled motor_num = true ->
   get_thrust max_motors motor_enabled actuator smin smax actuator_to_thrust gain
     motor_num thr_out
     = (true, actuator_to_thrust (constrain_float (actuator motor_num) smin smax) / gain) /\
   get_raw_motor_throttle max_motors motor_enabled actuator motor_num thr_out
     = (true, constrain_float (actuator motor_num) 0 1)).
Proof.
  unfold get_thrust, get_raw_motor_throttle. split.
  - intros [H | H].
    + apply Nat.leb_le in H. rewrite H. auto.
    + rewrite H, orb_true_r. auto.
  - intros H1 H2. apply Nat.leb_gt in H1. rewrite H1, H2. auto.
Qed.

Lemma get_thrust_and_raw_spec_witness :
  get_raw_motor_throttle 8 (fun i => Nat.ltb i 4) (fun _ => 3#2) 5 (7#10)
    = (false, 7#10) /\
  get_raw_motor_throttle 8 (fun i => Nat.ltb i 4) (fun _ => 3#2) 1 (7#10)
    = (true, 1).
Proof.
  split.
  - apply (get_thrust_and_raw_spec 8 (fun i => Nat.ltb i 4) (fun _ => 3#2)
             (15#100) (95#100) (fun x => x) 1 5 (7#10)).
    right. reflexivity.
  - apply (get_thrust_and_raw_spec 8 (fun i => Nat.ltb i 4) (fun _ => 3#2)
             (15#100) (95#100) (fun x => x) 1 1 (7#10)); [lia | reflexivity].
Defined.

(** ** C3 *)

(** C3: when disarmed, one call to [update_throttle_filter] leaves the
    throttle filter output at exactly 0 (a reset, not a decay). *)
Theorem update_throttle_filter_disarmed (lpf_apply : Q -> Q -> Q -> Q)
    (SlewTracker : Type) (slew_update : SlewTracker -> Q -> Z -> SlewTracker)
    (slew_slope : SlewTracker -> Q) (e : Env) (throttle_in : Q) (micros : Z)
    (t : ThrottleFilterSt SlewTracker) :
  armed e = false ->
  throttle_filter SlewTracker
    (update_throttle_filter lpf_apply SlewTracker slew_update slew_slope e
       throttle_in micros t) = 0.
Proof. intro H. unfold update_throttle_filter. rewrite H. reflexivity. Qed.

Lemma update_throttle_filter_disarmed_witness :
  let lpf := fun y x dt => y + (dt / (dt + 1)) * (x - y) in
  let e := {| armed := false; interlock := true; dt_s := 1#400; disarm_disable_pwm := false;
    safe_time := 0; spool_down_time := 0; slew_up_time := 0; slew_dn_time := 0;
    spin_arm := 1#10; spin_min := 15#100; spoolup_block := false; thrust_balanced := true;
    get_throttle := 0; get_throttle_hover := 1#2; batt_current_max := 0;
    batt_current_time_constant := 5; batt_current := None; batt_resistance := 0;
    batt_voltage := 14; batt_voltage_min := 13; pwm_min := 1000; pwm_max := 2000 |} in
  let t := {| throttle_filter := 7#10; throttle_slew := 0; throttle_slew_filter := 0;
              throttle_slew_rate := 0 |} in
  throttle_filter Q (update_throttle_filter lpf Q (fun _ q _ => q) (fun q => q) e
                       (7#10) 1000%Z t) = 0.
Proof.
  intros lpf e t. apply update_throttle_filter_disarmed. reflexivity.
Defined.

(** ** C4 *)




(** ** C8 *)

Lemma first_unassigned_motor_none (motor_enabled motor_has_channel : nat -> bool)
    (l : list nat) :
  first_unassigned_motor motor_enabled motor_has_channel l = None <->
  (forall i, In i l -> motor_enabled i = true -> motor_has_channel i = true).
Proof.
  induction l as [| j l IH]; simpl.
  - split; [intros _ i [] | reflexivity].
  - destruct (motor_enabled j) eqn:Ej; destruct (motor_has_channel j) eqn:Hj; simpl.
    all: split.
    all: first
      [ intro H; discriminate H
      | intro H; exfalso; specialize (H j (or_introl eq_refl) Ej); congruence
      | intros H i [<- | Hi] Hen; [congruence | apply IH; auto]
      | intro H; apply IH; intros i Hi; apply H; auto ].
Qed.

(** C8 fails as stated: the message is built from
    ["%sSPIN_ARM > %sSPIN_MIN"] with [AP_MOTORS_PARAM_PREFIX] in both
    places, so it reads "MOT_SPIN_ARM > MOT_SPIN_MIN", which does not
    contain "SPIN_ARM > SPIN_MIN" (here with [spin_arm = 0.2],
    [spin_min = 0.15], a 64-byte buffer and every check before passing). *)
Lemma arming_checks_spin_arm_message_prefixed :
  let p := {| plane_build := false; p_spin_min := 15#100; p_spin_arm := 2#10;
              p_pwm_min := 1000; p_pwm_max := 2000 |} in
  let r := arming_checks 4 (fun _ => true) (fun _ => true) (fun _ b => (true, b))
             (fun _ => "0.15") p 64 "" in
  fst r = false /\ snd r = "MOT_SPIN_ARM > MOT_SPIN_MIN" /\
  contains "SPIN_ARM > SPIN_MIN" (snd r) = false.
Proof. intros p r. vm_compute. auto. Qed.

(** C8 (amended): when the base checks pass, every enabled motor has an
    output channel, [spin_min <= 0.3] and [spin_arm > spin_min],
    [arming_checks] returns false and writes
    [P ++ "SPIN_ARM > " ++ P ++ "SPIN_MIN"] (P the parameter prefix, "MOT_"
    or "Q_M_") into the buffer as [snprintf] does, at most [buflen - 1]
    characters; it returns true exactly when the base checks pass, every
    enabled motor has a channel function, [spin_min <= 0.3],
    [spin_arm <= spin_min], [pwm_min >= 1] and [pwm_min < pwm_max]. *)
Theorem arming_checks_spec (max_motors : nat) (motor_enabled motor_has_channel : nat -> bool)
    (base_arming_checks : nat -> string -> bool * string) (fmt_2f : Q -> string)
    (p : MotParams) (buflen : nat) (buffer : string) :
  let r := arming_checks max_motors motor_enabled motor_has_channel base_arming_checks
             fmt_2f p buflen buffer in
  let pre := AP_MOTORS_PARAM_PREFIX (plane_build p) in
  (fst (base_arming_checks buflen buffer) = true ->
   (forall i, (i < max_motors)%nat -> motor_enabled i = true -> motor_has_channel i = true) ->
   p_spin_min p <= 3#10 -> p_spin_min p < p_spin_arm p ->
   r = (false, snprintf buflen (snd (base_arming_checks buflen buffer))
                 (pre ++ "SPIN_ARM > " ++ pre ++ "SPIN_MIN"))) /\
  (fst r = true <->
   fst (base_arming_checks buflen buffer) = true /\
   (forall i, (i < max_motors)%nat -> motor_enabled i = true -> motor_has_channel i = true) /\
   p_spin_min p <= 3#10 /\ p_spin_arm p <= p_spin_min p /\
   (1 <= p_pwm_min p)%Z /\ (p_pwm_min p < p_pwm_max p)%Z).
Proof.
  cbv zeta. unfold arming_checks.
  destruct (base_arming_checks buflen buffer) as [ok buf1]. simpl.
  assert (Hseq : (forall i, (i < max_motors)%nat -> motor_enabled i = true ->
                            motor_has_channel i = true) <->
                 first_unassigned_motor motor_enabled motor_has_channel
                   (seq 0 max_motors) = None).
  { rewrite first_unassigned_motor_none.
    split; intros H i; [rewrite in_seq; intros [_ Hi]; apply H; lia
                       | intros Hi; apply H; apply in_seq; lia]. }
  split.
  - intros -> Hch Hmin Harm. simpl.
    apply Hseq in Hch. rewrite Hch.
    destruct (Qltb (3#10) (p_spin_min p)) eqn:E1;
      [apply Qltb_true in E1; exfalso; lra |].
    destruct (Qltb (p_spin_min p) (p_spin_arm p)) eqn:E2;
      [reflexivity | apply Qltb_false in E2; exfalso; lra].
  - destruct ok; simpl; [| split; [discriminate | intros [H _]; discriminate]].
    destruct (first_unassigned_motor motor_enabled motor_has_channel (seq 0 max_motors))
      eqn:F; simpl.
    + split; [discriminate |]. intros (_ & H & _). apply Hseq in H. congruence.
    + destruct (Qltb (3#10) (p_spin_min p)) eqn:E1; simpl.
      { apply Qltb_true in E1. split; [discriminate | intros (_ & _ & H & _); lra]. }
      apply Qltb_false in E1.
      destruct (Qltb (p_spin_min p) (p_spin_arm p)) eqn:E2; simpl.
      { apply Qltb_true in E2. split; [discriminate | intros (_ & _ & _ & H & _); lra]. }
      apply Qltb_false in E2.
      unfold check_mot_pwm_params.
      destruct (Z.ltb (p_pwm_min p) 1) eqn:P1; simpl.
      { apply Z.ltb_lt in P1. split; [discriminate | intros (_ & _ & _ & _ & H & _); lia]. }
      apply Z.ltb_ge in P1.
      destruct (Z.leb (p_pwm_max p) (p_pwm_min p)) eqn:P2; simpl.
      { apply Z.leb_le in P2. split; [discriminate | intros (_ & _ & _ & _ & _ & H); lia]. }
      apply Z.leb_gt in P2.
      split; [intros _ | reflexivity].
      split; [reflexivity |]. split; [apply Hseq; reflexivity |]. auto.
Qed.

Lemma arming_checks_spec_witness :
  let p := {| plane_build := false; p_spin_min := 15#100; p_spin_arm := 2#10;
              p_pwm_min := 1000; p_pwm_max := 2000 |} in
  arming_checks 4 (fun _ => true) (fun _ => true) (fun _ b => (true, b))
    (fun _ => "0.15") p 64 "" = (false, "MOT_SPIN_ARM > MOT_SPIN_MIN").
Proof.
  intros p.
  destruct (arming_checks_spec 4 (fun _ => true) (fun _ => true) (fun _ b => (true, b))
              (fun _ => "0.15") p 64 "") as [H _].
  rewrite H.
  - vm_compute. reflexivity.
  - reflexivity.
  - intros; reflexivity.
  - vm_compute. discriminate.
  - vm_compute. reflexivity.
Defined.

(** * Further properties of the output stage *)

(** ** What [output_logic] does before its [switch] *)

Lemma output_logic_prelude (e : Env) (s : St) :
  exists s', output_logic e s = spool_switch e s' /\
    minimum_spool_time <= spool_up_time s' /\
    spin_up_ratio s' = spin_up_ratio s /\
    throttle_thrust_max s' = throttle_thrust_max s /\
    thrust_boost_ratio s' = thrust_boost_ratio s /\
    throttle_limit s' = throttle_limit s /\
    disarm_safe_timer s' =
      (if armed e then
         if disarm_disable_pwm e && Qltb (disarm_safe_timer s) (safe_time e)
         then disarm_safe_timer s + dt_s e else safe_time e
       else 0) /\
    (if armed e && interlock e
     then spool_state s' = spool_state s /\ spool_desired s' = spool_desired s
     else spool_state s' = SHUT_DOWN /\ spool_desired s' = DS_SHUT_DOWN).
Proof.
  unfold output_logic.
  set (s1 := if armed e then _ else _).
  assert (H1 : disarm_safe_timer s1 =
      (if armed e then
         if disarm_disable_pwm e && Qltb (disarm_safe_timer s) (safe_time e)
         then disarm_safe_timer s + dt_s e else safe_time e
       else 0) /\ spin_up_ratio s1 = spin_up_ratio s /\
      throttle_thrust_max s1 = throttle_thrust_max s /\
      thrust_boost_ratio s1 = thrust_boost_ratio s /\
      throttle_limit s1 = throttle_limit s /\
      spool_state s1 = spool_state s /\ spool_desired s1 = spool_desired s /\
      spool_up_time s1 = spool_up_time s).
  { unfold s1. destruct (armed e); [destruct (_ && _)|]; simpl; auto 10. }
  clearbody s1. destruct H1 as (T & R & M & B & L & Ss & Sd & U).
  set (s2 := if negb (armed e) || negb (interlock e) then _ else _).
  assert (H2 : disarm_safe_timer s2 = disarm_safe_timer s1 /\
      spin_up_ratio s2 = spin_up_ratio s1 /\
      throttle_thrust_max s2 = throttle_thrust_max s1 /\
      thrust_boost_ratio s2 = thrust_boost_ratio s1 /\
      throttle_limit s2 = throttle_limit s1 /\ spool_up_time s2 = spool_up_time s1 /\
      (if armed e && interlock e
       then spool_state s2 = spool_state s1 /\ spool_desired s2 = spool_desired s1
       else spool_state s2 = SHUT_DOWN /\ spool_desired s2 = DS_SHUT_DOWN)).
  { unfold s2. destruct (armed e), (interlock e); simpl; auto 10. }
  clearbody s2. destruct H2 as (T2 & R2 & M2 & B2 & L2 & U2 & St2).
  set (s3 := if Qltb (spool_up_time s2) minimum_spool_time then _ else _).
  exists s3. split; [reflexivity |].
  unfold s3. destruct (Qltb (spool_up_time s2) minimum_spool_time) eqn:E; simpl.
  all: split; [try apply Qle_refl; try (apply Qltb_false in E; exact E) |].
  all: rewrite R2, M2, B2, L2, T2, R, M, B, L, T; repeat split.
  all: destruct (armed e && interlock e); destruct St2 as [-> ->];
       rewrite ?Ss, ?Sd; split; reflexivity.
Qed.

(** X1: when the vehicle is disarmed or the interlock is off, one call of
    [output_logic] ends in SHUT_DOWN with desired state SHUT_DOWN, all limit
    flags set, [spin_up_ratio], [throttle_thrust_max] and
    [thrust_boost_ratio] at 0 and [thrust_boost] cleared; when disarmed the
    disarm safety timer is 0. *)
Theorem output_logic_forced_shut_down (e : Env) (s : St) :
  armed e = false \/ interlock e = false ->
  spool_state (output_logic e s) = SHUT_DOWN /\
  spool_desired (output_logic e s) = DS_SHUT_DOWN /\
  limit (output_logic e s) = all_limits true /\
  spin_up_ratio (output_logic e s) = 0 /\
  throttle_thrust_max (output_logic e s) = 0 /\
  thrust_boost (output_logic e s) = false /\
  thrust_boost_ratio (output_logic e s) = 0 /\
  (armed e = false -> disarm_safe_timer (output_logic e s) = 0).
Proof.
  intro H.
  destruct (output_logic_prelude e s) as (s' & -> & _ & _ & _ & _ & _ & T & Hst).
  assert (armed e && interlock e = false) as Hai
    by (destruct H as [-> | ->]; [reflexivity | apply andb_false_r]).
  rewrite Hai in Hst. destruct Hst as [Hs Hd].
  unfold spool_switch. rewrite Hs. unfold logic_shut_down. simpl. rewrite Hd. simpl.
  repeat split; auto.
  intro Ha. rewrite T, Ha. reflexivity.
Qed.

Lemma output_logic_forced_shut_down_witness :
  let e := {| armed := true; interlock := false; dt_s := 1#400; disarm_disable_pwm := true;
    safe_time := 1; spool_down_time := 0; slew_up_time := 0; slew_dn_time := 0;
    spin_arm := 1#10; spin_min := 15#100; spoolup_block := false; thrust_balanced := true;
    get_throttle := 1#2; get_throttle_hover := 1#2; batt_current_max := 0;
    batt_current_time_constant := 5; batt_current := None; batt_resistance := 0;
    batt_voltage := 14; batt_voltage_min := 13; pwm_min := 1000; pwm_max := 2000 |} in
  let s := st_example THROTTLE_UNLIMITED DS_THROTTLE_UNLIMITED in
  spool_state (output_logic e s) = SHUT_DOWN /\ limit (output_logic e s) = all_limits true.
Proof.
  intros e s.
  destruct (output_logic_forced_shut_down e s (or_intror eq_refl)) as (H1 & _ & H3 & _).
  split; assumption.
Defined.

Ltac unfold_spool :=
  unfold spool_switch, logic_shut_down, logic_ground_idle, logic_spooling_up,
    logic_throttle_unlimited, logic_spooling_down, get_current_limit_max_throttle.

Lemma spool_switch_spool_up_time (e : Env) (s : St) :
  spool_up_time (spool_switch e s) = spool_up_time s.
Proof.
  destruct (spool_state s) eqn:Hs; unfold_spool; rewrite Hs;
    simpl; destruct (spool_desired s); split_branches; reflexivity.
Qed.

(** Spool-state successors of one [spool_switch] step, by current state. *)
Lemma spool_switch_successor (e : Env) (s : St) :
  let ss' := spool_state (spool_switch e s) in
  match spool_state s with
  | SHUT_DOWN => ss' = SHUT_DOWN \/ ss' = GROUND_IDLE
  | GROUND_IDLE => ss' = GROUND_IDLE \/ ss' = SHUT_DOWN \/ ss' = SPOOLING_UP
  | SPOOLING_UP => ss' = SPOOLING_UP \/ ss' = THROTTLE_UNLIMITED \/ ss' = SPOOLING_DOWN
  | THROTTLE_UNLIMITED => ss' = THROTTLE_UNLIMITED \/ ss' = SPOOLING_DOWN
  | SPOOLING_DOWN => ss' = SPOOLING_DOWN \/ ss' = SPOOLING_UP \/ ss' = GROUND_IDLE
  end.
Proof.
  cbv zeta.
  destruct (spool_state s) eqn:Hs; unfold_spool; rewrite Hs; simpl;
    destruct (spool_desired s); split_branches; rewrite ?Hs; auto.
Qed.

Lemma spool_switch_unlimited (e : Env) (s : St) :
  spool_state (spool_switch e s) = THROTTLE_UNLIMITED ->
  spin_up_ratio (spool_switch e s) = 1 /\ limit (spool_switch e s) = all_limits false.
Proof.
  destruct (spool_state s) eqn:Hs; unfold_spool; rewrite Hs; simpl;
    destruct (spool_desired s); split_branches; rewrite ?Hs; intro H;
    try discriminate; auto.
Qed.

(** X2: after [output_logic] the spool-up time is at least
    [minimum_spool_time] (0.05 s), whatever the parameter held, so the spool
    steps of the next tick never divide by zero. *)
Theorem output_logic_spool_up_time_min (e : Env) (s : St) :
  minimum_spool_time <= spool_up_time (output_logic e s).
Proof.
  destruct (output_logic_prelude e s) as (s' & -> & U & _).
  rewrite spool_switch_spool_up_time. exact U.
Qed.

(** X3: when armed with the interlock on, one call of [output_logic] moves
    the spool state only along the edges of the state machine: SHUT_DOWN to
    GROUND_IDLE, GROUND_IDLE to SHUT_DOWN or SPOOLING_UP, SPOOLING_UP to
    THROTTLE_UNLIMITED or SPOOLING_DOWN, THROTTLE_UNLIMITED to SPOOLING_DOWN,
    SPOOLING_DOWN to SPOOLING_UP or GROUND_IDLE, or it stays. *)
Theorem output_logic_transitions (e : Env) (s : St) :
  armed e = true -> interlock e = true ->
  let ss' := spool_state (output_logic e s) in
  match spool_state s with
  | SHUT_DOWN => ss' = SHUT_DOWN \/ ss' = GROUND_IDLE
  | GROUND_IDLE => ss' = GROUND_IDLE \/ ss' = SHUT_DOWN \/ ss' = SPOOLING_UP
  | SPOOLING_UP => ss' = SPOOLING_UP \/ ss' = THROTTLE_UNLIMITED \/ ss' = SPOOLING_DOWN
  | THROTTLE_UNLIMITED => ss' = THROTTLE_UNLIMITED \/ ss' = SPOOLING_DOWN
  | SPOOLING_DOWN => ss' = SPOOLING_DOWN \/ ss' = SPOOLING_UP \/ ss' = GROUND_IDLE
  end.
Proof.
  intros Ha Hi.
  destruct (output_logic_prelude e s) as (s' & -> & _ & _ & _ & _ & _ & _ & Hst).
  rewrite Ha, Hi in Hst. destruct Hst as [Hs _].
  pose proof (spool_switch_successor e s') as H. rewrite Hs in H. exact H.
Qed.

Lemma output_logic_transitions_witness :
  spool_state (output_logic env_example (st_example GROUND_IDLE DS_THROTTLE_UNLIMITED))
    = GROUND_IDLE \/
  spool_state (output_logic env_example (st_example GROUND_IDLE DS_THROTTLE_UNLIMITED))
    = SHUT_DOWN \/
  spool_state (output_logic env_example (st_example GROUND_IDLE DS_THROTTLE_UNLIMITED))
    = SPOOLING_UP.
Proof.
  exact (output_logic_transitions env_example (st_example GROUND_IDLE DS_THROTTLE_UNLIMITED)
           eq_refl eq_refl).
Defined.

(** X4: while the spool-up block is active, a call of [output_logic] from
    GROUND_IDLE never enters SPOOLING_UP. *)
Theorem output_logic_spoolup_block (e : Env) (s : St) :
  spoolup_block e = true -> spool_state s = GROUND_IDLE ->
  spool_state (output_logic e s) <> SPOOLING_UP.
Proof.
  intros Hb Hs0.
  destruct (output_logic_prelude e s) as (s' & -> & _ & _ & _ & _ & _ & _ & Hst).
  destruct (armed e && interlock e); destruct Hst as [Hs _]; rewrite ?Hs0 in Hs;
    unfold_spool; rewrite Hs; simpl; [destruct (spool_desired s') |];
    rewrite ?Hb; split_branches; rewrite ?Hs; discriminate.
Qed.

Lemma output_logic_spoolup_block_witness :
  spool_state (output_logic (env_with env_example true false (Some 70))
                 (st_example GROUND_IDLE DS_THROTTLE_UNLIMITED)) <> SPOOLING_UP.
Proof.
  apply output_logic_spoolup_block; reflexivity.
Defined.

(** X5: with [MOT_SAFE_DISARM] off ([disarm_disable_pwm] false), an armed
    vehicle with the interlock on leaves SHUT_DOWN for GROUND_IDLE in the
    first call of [output_logic] after a state other than SHUT_DOWN is
    requested. *)
Theorem output_logic_shut_down_leaves_at_once (e : Env) (s : St) :
  disarm_disable_pwm e = false -> armed e = true -> interlock e = true ->
  spool_state s = SHUT_DOWN -> spool_desired s <> DS_SHUT_DOWN ->
  spool_state (output_logic e s) = GROUND_IDLE.
Proof.
  intros Hd Ha Hi Hs0 Hds.
  destruct (output_logic_prelude e s) as (s' & -> & _ & _ & _ & _ & _ & T & Hst).
  rewrite Ha, Hi in Hst. rewrite Ha, Hd in T. simpl in T. destruct Hst as [Hs Hsd].
  unfold spool_switch. rewrite Hs, Hs0. unfold logic_shut_down. simpl. rewrite Hsd, T.
  unfold Qleb. rewrite (proj2 (Qle_bool_iff _ _) (Qle_refl _)).
  destruct (spool_desired s); [contradiction | reflexivity | reflexivity].
Qed.

Lemma output_logic_shut_down_leaves_at_once_witness :
  spool_state (output_logic env_example (st_example SHUT_DOWN DS_GROUND_IDLE)) = GROUND_IDLE.
Proof.
  apply output_logic_shut_down_leaves_at_once; try reflexivity. discriminate.
Defined.

(** X6: with [MOT_SAFE_DISARM] on, an armed vehicle with the interlock on
    stays in SHUT_DOWN while the disarm safety timer plus the loop period is
    still below [MOT_SAFE_TIME], and the timer advances by the loop period. *)
Theorem output_logic_shut_down_waits_safe_time (e : Env) (s : St) :
  disarm_disable_pwm e = true -> armed e = true -> interlock e = true ->
  0 <= dt_s e -> disarm_safe_timer s + dt_s e < safe_time e ->
  spool_state s = SHUT_DOWN ->
  spool_state (output_logic e s) = SHUT_DOWN /\
  disarm_safe_timer (output_logic e s) = disarm_safe_timer s + dt_s e.
Proof.
  intros Hd Ha Hi Hdt Ht Hs0.
  destruct (output_logic_prelude e s) as (s' & -> & _ & _ & _ & _ & _ & T & Hst).
  rewrite Ha, Hi in Hst. rewrite Ha, Hd in T. simpl in T.
  rewrite (proj2 (Qltb_true _ _)) in T by lra.
  destruct Hst as [Hs _].
  unfold spool_switch. rewrite Hs, Hs0. unfold logic_shut_down. simpl. rewrite T.
  unfold Qleb.
  replace (Qle_bool (safe_time e) (disarm_safe_timer s + dt_s e)) with false.
  - rewrite andb_false_r. simpl. split; [rewrite Hs; exact Hs0 | exact T].
  - symmetry. apply (proj1 (negb_true_iff _)).
    change (Qltb (disarm_safe_timer s + dt_s e) (safe_time e) = true).
    apply Qltb_true. exact Ht.
Qed.

Lemma output_logic_shut_down_waits_safe_time_witness :
  let e := env_with env_example false true (Some 70) in
  let s := st_example SHUT_DOWN DS_THROTTLE_UNLIMITED in
  spool_state (output_logic e s) = SHUT_DOWN /\
  disarm_safe_timer (output_logic e s) = disarm_safe_timer s + dt_s e.
Proof.
  intros e s. apply output_logic_shut_down_waits_safe_time; try reflexivity;
    simpl; lra.
Defined.

(** X7: whenever [output_logic] ends in THROTTLE_UNLIMITED, the spin-up
    ratio is 1 and every limit flag is cleared. *)
Theorem output_logic_unlimited (e : Env) (s : St) :
  spool_state (output_logic e s) = THROTTLE_UNLIMITED ->
  spin_up_ratio (output_logic e s) = 1 /\ limit (output_logic e s) = all_limits false.
Proof.
  destruct (output_logic_prelude e s) as (s' & -> & _).
  apply spool_switch_unlimited.
Qed.

Lemma output_logic_unlimited_witness :
  let s := output_logic env_example (st_example THROTTLE_UNLIMITED DS_THROTTLE_UNLIMITED) in
  spin_up_ratio s = 1 /\ limit s = all_limits false.
Proof.
  intro s. apply output_logic_unlimited. vm_compute. reflexivity.
Defined.

(** ** Range invariants of the spool state machine *)

Lemma Qleb_true_iff x y : Qleb x y = true <-> x <= y.
Proof. unfold Qleb. apply Qle_bool_iff. Qed.

Lemma Qleb_false_lt x y : Qleb x y = false -> y < x.
Proof.
  intro H. apply Qnot_le_lt. intro H'. apply Qleb_true_iff in H'. congruence.
Qed.

Lemma Qmin'_cases a b : Qmin' a b = a /\ a < b \/ Qmin' a b = b /\ b <= a.
Proof. unfold Qmin'. qcase E; [left | right]; split; auto; reflexivity. Qed.

Lemma Qmax'_cases a b : Qmax' a b = a /\ b < a \/ Qmax' a b = b /\ a <= b.
Proof. unfold Qmax'. qcase E; [left | right]; split; auto; reflexivity. Qed.

Lemma spool_down_effective_pos e s :
  minimum_spool_time <= spool_up_time s -> 0 < spool_down_effective e s.
Proof.
  unfold spool_down_effective, minimum_spool_time. intro H. qcase E; lra.
Qed.

Lemma current_limit_range e tl :
  0 <= get_throttle_hover e <= 1 -> 0 <= fst (current_limit e tl) <= 1.
Proof.
  intro Hh. unfold current_limit.
  destruct (Qleb (batt_current_max e) 0 || negb (armed e)); [cbn [fst]; lra |].
  destruct (batt_current e) as [c |]; [| cbn [fst]; lra].
  destruct (is_zero (batt_resistance e)); [cbn [fst]; lra |].
  cbv zeta. cbn [fst].
  set (t := constrain_float _ (1#5) 1).
  assert (1#5 <= t <= 1) by (apply constrain_float_bounds; lra).
  nra.
Qed.

Lemma approach_bounds spin target dn up :
  0 <= spin <= 1 -> 0 <= target <= 1 -> 0 <= dn -> 0 <= up ->
  0 <= spin + constrain_float (target - spin) (- dn) up <= 1.
Proof.
  intros. unfold constrain_float. qcase E1; [lra |]. qcase E2; lra.
Qed.

Ltac step_facts :=
  repeat match goal with
  | |- context [dt_s ?e / spool_down_effective ?e ?x] =>
      let d := fresh "dn" in let H := fresh "Hdn" in
      assert (H : 0 <= dt_s e / spool_down_effective e x)
        by (apply div_nonneg; [assumption | apply spool_down_effective_pos; simpl;
                                unfold minimum_spool_time in *; lra]);
      set (d := dt_s e / spool_down_effective e x) in *
  | |- context [dt_s ?e / spool_up_time ?x] =>
      let d := fresh "up" in let H := fresh "Hup" in
      assert (H : 0 <= dt_s e / spool_up_time x)
        by (apply div_nonneg; [assumption | simpl; unfold minimum_spool_time in *; lra]);
      set (d := dt_s e / spool_up_time x) in *
  end.

Ltac branch_eqs :=
  repeat (simpl; match goal with
  | |- context [if Qltb ?a ?b then _ else _] =>
      let E := fresh "E" in destruct (Qltb a b) eqn:E;
      [apply Qltb_true in E | apply Qltb_false in E]
  | |- context [if Qleb ?a ?b then _ else _] =>
      let E := fresh "E" in destruct (Qleb a b) eqn:E;
      [apply Qleb_true_iff in E | apply Qleb_false_lt in E]
  | |- context [if ?c then _ else _] => let E := fresh "E" in destruct c eqn:E
  | |- context [current_limit ?e ?t] =>
      let E := fresh "E" in let R := fresh "R" in
      pose proof (current_limit_range e t) as R;
      destruct (current_limit e t) eqn:E; cbn [fst] in R
  end); simpl.

Lemma spool_switch_spin_range (e : Env) (s : St) :
  0 <= dt_s e -> minimum_spool_time <= spool_up_time s ->
  0 <= spin_arm e <= spin_min e -> 0 <= spin_up_ratio s <= 1 ->
  0 <= spin_up_ratio (spool_switch e s) <= 1.
Proof.
  intros Hdt Hmin Harm Hspin.
  destruct (spool_state s) eqn:Hs; unfold_spool; rewrite Hs; simpl;
    try destruct (spool_desired s); step_facts; branch_eqs; try lra.
  all: apply approach_bounds; try assumption; try lra.
  all: split; [apply div_nonneg; lra | apply Qle_shift_div_r; lra].
Qed.

Lemma Qmin'_le_r a b : Qmin' a b <= b.
Proof. destruct (Qmin'_cases a b) as [[-> ?] | [-> ?]]; lra. Qed.

Ltac use_ranges :=
  repeat match goal with R : ?P -> _, H : ?P |- _ => specialize (R H) end;
  repeat match goal with
  | H : context [Qmin' ?a ?b] |- _ =>
      lazymatch goal with
      | _ : Qmin' a b <= b |- _ => fail
      | _ => pose proof (Qmin'_le_r a b)
      end
  end;
  repeat match goal with
  | |- context [Qmax' ?a ?b] => destruct (Qmax'_cases a b) as [[-> ?] | [-> ?]]
  | |- context [Qmin' ?a ?b] => destruct (Qmin'_cases a b) as [[-> ?] | [-> ?]]
  end.

Lemma spool_switch_thrust_max_range (e : Env) (s : St) :
  0 <= dt_s e -> minimum_spool_time <= spool_up_time s ->
  0 <= get_throttle_hover e <= 1 -> 0 <= throttle_thrust_max s <= 1 ->
  0 <= throttle_thrust_max (spool_switch e s) <= 1.
Proof.
  intros Hdt Hmin Hh Ht.
  destruct (spool_state s) eqn:Hs; unfold_spool; rewrite Hs; simpl;
    try destruct (spool_desired s); step_facts; branch_eqs; use_ranges; lra.
Qed.

Lemma spool_switch_boost_ratio_range (e : Env) (s : St) :
  0 <= dt_s e -> minimum_spool_time <= spool_up_time s ->
  0 <= thrust_boost_ratio s <= 1 ->
  0 <= thrust_boost_ratio (spool_switch e s) <= 1.
Proof.
  intros Hdt Hmin Hb.
  destruct (spool_state s) eqn:Hs; unfold_spool; rewrite Hs; simpl;
    try destruct (spool_desired s); step_facts; branch_eqs; use_ranges; lra.
Qed.

(** X8: with a non-negative loop period and 0 <= [MOT_SPIN_ARM] <=
    [MOT_SPIN_MIN], [output_logic] keeps the spin-up ratio in [0, 1]. *)
Theorem output_logic_spin_up_ratio_range (e : Env) (s : St) :
  0 <= dt_s e -> 0 <= spin_arm e <= spin_min e -> 0 <= spin_up_ratio s <= 1 ->
  0 <= spin_up_ratio (output_logic e s) <= 1.
Proof.
  intros Hdt Harm Hspin.
  destruct (output_logic_prelude e s) as (s' & -> & U & R & _).
  apply spool_switch_spin_range; try assumption. rewrite R. exact Hspin.
Qed.

Lemma output_logic_spin_up_ratio_range_witness :
  0 <= spin_up_ratio (output_logic env_example (st_example GROUND_IDLE DS_GROUND_IDLE)) <= 1.
Proof.
  apply output_logic_spin_up_ratio_range; simpl; lra.
Defined.

(** X9: when the learned hover throttle lies in [0, 1], [output_logic] keeps
    the maximum thrust [throttle_thrust_max] in [0, 1]. *)
Theorem output_logic_thrust_max_range (e : Env) (s : St) :
  0 <= dt_s e -> 0 <= get_throttle_hover e <= 1 -> 0 <= throttle_thrust_max s <= 1 ->
  0 <= throttle_thrust_max (output_logic e s) <= 1.
Proof.
  intros Hdt Hh Ht.
  destruct (output_logic_prelude e s) as (s' & -> & U & _ & M & _).
  apply spool_switch_thrust_max_range; try assumption. rewrite M. exact Ht.
Qed.

Lemma output_logic_thrust_max_range_witness :
  0 <= throttle_thrust_max
         (output_logic env_example (st_example SPOOLING_UP DS_THROTTLE_UNLIMITED)) <= 1.
Proof.
  apply output_logic_thrust_max_range; simpl; lra.
Defined.

(** X10: with a non-negative loop period, [output_logic] keeps the thrust
    boost ratio in [0, 1]. *)
Theorem output_logic_boost_ratio_range (e : Env) (s : St) :
  0 <= dt_s e -> 0 <= thrust_boost_ratio s <= 1 ->
  0 <= thrust_boost_ratio (output_logic e s) <= 1.
Proof.
  intros Hdt Hb.
  destruct (output_logic_prelude e s) as (s' & -> & U & _ & _ & B & _).
  apply spool_switch_boost_ratio_range; try assumption. rewrite B. exact Hb.
Qed.

Lemma output_logic_boost_ratio_range_witness :
  0 <= thrust_boost_ratio
         (output_logic env_example (st_example THROTTLE_UNLIMITED DS_THROTTLE_UNLIMITED)) <= 1.
Proof.
  apply output_logic_boost_ratio_range; simpl; lra.
Defined.

(** ** Actuator slew, throttle filter and PWM conversion *)

Lemma slew_limits_unit c a :
  0 <= output_slew_limit_dn c a <= 1 /\ 0 <= output_slew_limit_up c a <= 1.
Proof.
  unfold output_slew_limit_dn, output_slew_limit_up.
  split; match goal with |- context [if ?b then _ else _] => destruct b end;
    try (apply constrain_float_bounds; lra); lra.
Qed.

Lemma slew_result_unit (c : Env) (a input : Q) :
  0 <= set_actuator_with_slew c a input <= 1.
Proof.
  destruct (slew_limits_unit c a) as [Hdn Hup].
  unfold set_actuator_with_slew, constrain_float.
  qcase E1; [lra |]. qcase E2; lra.
Qed.

(** X11: [set_actuator_with_slew] always yields a value in [0, 1], whatever
    the previous actuator value, the requested input, the loop period and the
    slew parameters. *)
Theorem set_actuator_with_slew_unit (c : Env) (a input : Q) :
  0 <= set_actuator_with_slew c a input <= 1.
Proof. apply slew_result_unit. Qed.

(** X12: when armed, [update_throttle_filter] leaves the filtered throttle
    in [0, 1], whatever the low-pass filter returns. *)
Theorem update_throttle_filter_armed_unit (lpf_apply : Q -> Q -> Q -> Q)
    (SlewTracker : Type) (slew_update : SlewTracker -> Q -> Z -> SlewTracker)
    (slew_slope : SlewTracker -> Q) (e : Env) (throttle_in : Q) (micros : Z)
    (t : ThrottleFilterSt SlewTracker) :
  armed e = true ->
  0 <= throttle_filter SlewTracker
         (update_throttle_filter lpf_apply SlewTracker slew_update slew_slope
            e throttle_in micros t) <= 1.
Proof.
  intro Ha. unfold update_throttle_filter. rewrite Ha. simpl.
  set (f := lpf_apply _ _ _).
  destruct (Qltb f 0) eqn:E1; [apply Qltb_true in E1 | apply Qltb_false in E1];
    qcase E2; lra.
Qed.

Lemma update_throttle_filter_armed_unit_witness :
  0 <= throttle_filter unit
         (update_throttle_filter (fun out sample dt => out + (sample - out) * (1#2)) unit
            (fun u _ _ => u) (fun _ => 0) env_example 3 0
            {| throttle_filter := 1#2; throttle_slew := tt;
               throttle_slew_filter := 0; throttle_slew_rate := 0 |}) <= 1.
Proof.
  apply update_throttle_filter_armed_unit. reflexivity.
Defined.

Lemma float_to_int_mono (q1 q2 : Q) : q1 <= q2 -> (float_to_int q1 <= float_to_int q2)%Z.
Proof.
  intro H. unfold float_to_int.
  destruct (Qle_bool 0 q1) eqn:E1, (Qle_bool 0 q2) eqn:E2.
  - apply Qfloor_resp_le. exact H.
  - apply Qle_bool_iff in E1. exfalso.
    assert (~ 0 <= q2) as N by (intro N; apply Qle_bool_iff in N; congruence).
    apply N. lra.
  - assert (~ 0 <= q1) as N by (intro N; apply Qle_bool_iff in N; congruence).
    apply Qle_bool_iff in E2.
    assert (0 <= - q1) as H1 by lra.
    apply Qfloor_resp_le in H1. change (Qfloor 0) with 0%Z in H1.
    apply Qfloor_resp_le in E2. change (Qfloor 0) with 0%Z in E2. lia.
  - assert (- q2 <= - q1) as H1 by lra. apply Qfloor_resp_le in H1. lia.
Qed.

(** X13: outside SHUT_DOWN, with [pwm_min <= pwm_max], [output_to_pwm] is
    monotone: a larger actuator value never gives a smaller PWM. *)
Theorem output_to_pwm_monotone (e : Env) (s : St) (a1 a2 : Q) :
  spool_state s <> SHUT_DOWN -> (pwm_min e <= pwm_max e)%Z -> a1 <= a2 ->
  (output_to_pwm e s a1 <= output_to_pwm e s a2)%Z.
Proof.
  intros Hs Hp Ha. unfold output_to_pwm.
  assert (0 <= inject_Z (pwm_max e - pwm_min e)) as Hd.
  { change 0 with (inject_Z 0). rewrite <- Zle_Qle. lia. }
  destruct (spool_state s); [contradiction | ..]; apply float_to_int_mono; nra.
Qed.

Lemma output_to_pwm_monotone_witness :
  (output_to_pwm env_example (st_example THROTTLE_UNLIMITED DS_THROTTLE_UNLIMITED) (1#4)
   <= output_to_pwm env_example (st_example THROTTLE_UNLIMITED DS_THROTTLE_UNLIMITED) (3#4))%Z.
Proof.
  apply output_to_pwm_monotone; [discriminate | simpl; lia | lra].
Defined.

(** ** Auxiliary outputs and parameter handling *)

Lemma constrain_float_mono (x y lo hi : Q) :
  lo <= hi -> x <= y -> constrain_float x lo hi <= constrain_float y lo hi.
Proof.
  intros H Hxy. unfold constrain_float.
  qcase E1; qcase E2; try lra; qcase E3; try lra; qcase E4; lra.
Qed.

(** X14: the booster throttle sent by [output_boost_throttle] lies in
    [0, 1000] and never decreases when the throttle increases. *)
Theorem output_boost_throttle_range_mono (boost_scale thr thr' : Q) :
  0 <= output_boost_throttle boost_scale thr <= 1000 /\
  (thr <= thr' -> output_boost_throttle boost_scale thr <= output_boost_throttle boost_scale thr').
Proof.
  unfold output_boost_throttle. qcase E; [| split; [lra | intros; lra]].
  split.
  - assert (0 <= 1) as H01 by lra.
    pose proof (constrain_float_bounds (thr * boost_scale) 0 1 H01). lra.
  - intro H. assert (thr * boost_scale <= thr' * boost_scale) as Hm by nra.
    pose proof (constrain_float_mono _ _ 0 1 ltac:(lra) Hm). lra.
Qed.

(** X15: [update_external_limits] never clears a limit flag; with scripting
    built in, every flag set in the external limits is set afterwards, and a
    second call with the same external limits changes nothing. *)
Theorem update_external_limits_props (scripting : bool) (l x : Limits) :
  let l' := update_external_limits scripting l x in
  Forall (fun f => (f l = true -> f l' = true) /\
                   (scripting = true -> f x = true -> f l' = true))
    [limit_roll; limit_pitch; limit_yaw; limit_throttle_lower; limit_throttle_upper] /\
  update_external_limits scripting l' x = l'.
Proof.
  cbv zeta. unfold update_external_limits.
  split.
  - apply Forall_forall. intros f Hf. simpl in Hf.
    destruct scripting; [| split; [auto | discriminate]].
    destruct Hf as [<- | [<- | [<- | [<- | [<- | []]]]]]; simpl; split; intros;
      apply orb_true_iff; auto.
  - destruct scripting; [| reflexivity].
    simpl. f_equal; rewrite <- orb_assoc, orb_diag; reflexivity.
Qed.

(** X16: after [update_throttle_range] the PWM range passes
    [check_mot_pwm_params] whenever it passed before, and always when the
    outputs are digital or of type PWM_RANGE or PWM_ANGLE (the range is then
    1000..2000). *)
Theorem update_throttle_range_valid (have_digital_outputs : bool) (pwm_type : PWMType)
    (p : MotParams) :
  let '(mn, mx) := update_throttle_range have_digital_outputs pwm_type
                     (p_pwm_min p) (p_pwm_max p) in
  let p' := {| plane_build := plane_build p; p_spin_min := p_spin_min p;
               p_spin_arm := p_spin_arm p; p_pwm_min := mn; p_pwm_max := mx |} in
  (check_mot_pwm_params p = true -> check_mot_pwm_params p' = true) /\
  (have_digital_outputs || PWMType_eqb pwm_type PWM_RANGE
     || PWMType_eqb pwm_type PWM_ANGLE = true -> check_mot_pwm_params p' = true).
Proof.
  unfold update_throttle_range.
  destruct (have_digital_outputs || _ || _); [split; reflexivity |].
  split; [destruct p; auto | discriminate].
Qed.

(** X18: the [mot_fail_flags] log byte fits in two bits, bit 0 reads back
    [_thrust_boost] and bit 1 reads back [_thrust_balanced]. *)
Theorem mot_fail_flags_decode (thrust_boost thrust_balanced : bool) :
  let f := mot_fail_flags thrust_boost thrust_balanced in
  (0 <= f < 4)%Z /\ Z.testbit f 0 = thrust_boost /\ Z.testbit f 1 = thrust_balanced.
Proof.
  destruct thrust_boost, thrust_balanced; vm_compute; repeat split; discriminate.
Qed.

(** X19: with a non-negative [MOT_SPIN_MIN], the output of
    [actuator_spin_up_to_ground_idle] lies between 0 and [MOT_SPIN_MIN],
    whatever the spin-up ratio. *)
Theorem actuator_spin_up_to_ground_idle_range (e : Env) (s : St) :
  0 <= spin_min e ->
  0 <= actuator_spin_up_to_ground_idle e s <= spin_min e.
Proof.
  intro H. unfold actuator_spin_up_to_ground_idle.
  assert (0 <= 1) as H01 by lra.
  pose proof (constrain_float_bounds (spin_up_ratio s) 0 1 H01). nra.
Qed.

Lemma actuator_spin_up_to_ground_idle_range_witness :
  0 <= actuator_spin_up_to_ground_idle env_example (st_example GROUND_IDLE DS_GROUND_IDLE)
    <= spin_min env_example.
Proof.
  apply actuator_spin_up_to_ground_idle_range. simpl. lra.
Defined.

(** ** [output_motor_mask] *)

Section MotorMaskProps.
Variable e : Env.
Variable motor_enabled : nat -> bool.
Variable roll_factor : nat -> Q.
Variables (thrust : Q) (mask : Z) (rudder_dt : Q).

Lemma motor_mask_loop_untouched (l : list nat) (a : nat -> Q) (w : list PwmWrite) (j : nat) :
  ~ (In j l /\ motor_enabled j && motor_in_mask mask j = true) ->
  fst (output_motor_mask_loop e motor_enabled roll_factor thrust mask rudder_dt l a w) j = a j.
Proof.
  revert a w. induction l as [| i l IH]; intros a w Hj; simpl; [reflexivity |].
  destruct (motor_enabled i && motor_in_mask mask i) eqn:S.
  - rewrite IH by (intros [H1 H2]; apply Hj; split; [right |]; assumption).
    destruct (Nat.eqb j i) eqn:Eji; [| reflexivity].
    apply Nat.eqb_eq in Eji. subst j. exfalso. apply Hj. split; [left |]; auto.
  - apply IH. intros [H1 H2]; apply Hj; split; [right |]; assumption.
Qed.

Lemma motor_mask_loop_selected (l : list nat) (a : nat -> Q) (w : list PwmWrite) (j : nat) :
  NoDup l -> In j l -> motor_enabled j && motor_in_mask mask j = true ->
  fst (output_motor_mask_loop e motor_enabled roll_factor thrust mask rudder_dt l a w) j
  = output_motor_mask_actuator e (roll_factor j) (a j) thrust rudder_dt.
Proof.
  revert a w. induction l as [| i l IH]; intros a w Hnd Hin Hs; [destruct Hin |].
  apply NoDup_cons_iff in Hnd. destruct Hnd as [Hni Hnd]. simpl.
  destruct (Nat.eqb j i) eqn:Eji.
  - apply Nat.eqb_eq in Eji. subst j. rewrite Hs.
    rewrite motor_mask_loop_untouched by (intros [H _]; contradiction).
    rewrite Nat.eqb_refl. reflexivity.
  - destruct Hin as [Hin | Hin]; [subst i; rewrite Nat.eqb_refl in Eji; discriminate |].
    destruct (motor_enabled i && motor_in_mask mask i).
    + rewrite IH by assumption. rewrite Eji. reflexivity.
    + apply IH; assumption.
Qed.

Lemma motor_mask_loop_writes (l : list nat) (a : nat -> Q) (w : list PwmWrite) :
  NoDup l ->
  let r := output_motor_mask_loop e motor_enabled roll_factor thrust mask rudder_dt l a w in
  snd r = (w ++ map (fun i => RcWrite i (motor_mask_pwm e (fst r i)))
                   (filter (fun i => motor_enabled i && motor_in_mask mask i) l))%list.
Proof.
  cbv zeta. revert a w. induction l as [| i l IH]; intros a w Hnd; simpl.
  - rewrite app_nil_r. reflexivity.
  - apply NoDup_cons_iff in Hnd. destruct Hnd as [Hni Hnd].
    destruct (motor_enabled i && motor_in_mask mask i) eqn:S.
    + rewrite IH by exact Hnd. rewrite <- app_assoc. simpl. do 3 f_equal.
      rewrite motor_mask_loop_untouched by (intros [H _]; contradiction).
      rewrite Nat.eqb_refl. reflexivity.
    + apply IH. exact Hnd.
Qed.

End MotorMaskProps.

Lemma output_motor_mask_closed_form (e : Env) (motor_enabled : nat -> bool)
    (roll_factor : nat -> Q) (thrust : Q) (mask : Z) (rudder_dt : Q)
    (max_motors : nat) (actuator : nat -> Q) :
  let '(override, actuator', writes) :=
    output_motor_mask e motor_enabled roll_factor thrust mask rudder_dt max_motors actuator in
  override = mask /\
  writes = map (fun i => RcWrite i (motor_mask_pwm e (actuator' i)))
             (filter (fun i => motor_enabled i && motor_in_mask mask i) (seq 0 max_motors)) /\
  (forall j, (max_motors <= j)%nat \/ motor_enabled j && motor_in_mask mask j = false ->
     actuator' j = actuator j) /\
  (forall j, (j < max_motors)%nat -> motor_enabled j && motor_in_mask mask j = true ->
     actuator' j = output_motor_mask_actuator e (roll_factor j) (actuator j) thrust rudder_dt).
Proof.
  unfold output_motor_mask.
  pose proof (motor_mask_loop_writes e motor_enabled roll_factor thrust mask rudder_dt
                (seq 0 max_motors) actuator [] (seq_NoDup max_motors 0)) as Hw.
  pose proof (motor_mask_loop_untouched e motor_enabled roll_factor thrust mask rudder_dt
                (seq 0 max_motors) actuator []) as Hu.
  pose proof (motor_mask_loop_selected e motor_enabled roll_factor thrust mask rudder_dt
                (seq 0 max_motors) actuator [] ) as Hs.
  cbv zeta in Hw.
  destruct (output_motor_mask_loop _ _ _ _ _ _ (seq 0 max_motors) actuator []) as [a' w].
  simpl in Hw, Hu, Hs.
  split; [reflexivity | split; [exact Hw | split]].
  - intros j Hj. apply Hu. intros [Hin Hsel]. apply in_seq in Hin.
    destruct Hj as [Hj | Hj]; [lia | congruence].
  - intros j Hj Hsel. apply Hs; [apply seq_NoDup | apply in_seq; lia | exact Hsel].
Qed.

(** X20: [output_motor_mask] records the mask as [_motor_mask_override],
    writes one PWM value to each motor that is enabled and selected by the
    mask, in increasing motor order, computed from that motor's new actuator
    value; it updates the actuator of exactly those motors, with
    [set_actuator_with_slew] (or 0 when disarmed or the interlock is off),
    and leaves every other actuator value unchanged. *)
Theorem output_motor_mask_spec (e : Env) (motor_enabled : nat -> bool)
    (roll_factor : nat -> Q) (thrust : Q) (mask : Z) (rudder_dt : Q)
    (max_motors : nat) (actuator : nat -> Q) :
  let '(override, actuator', writes) :=
    output_motor_mask e motor_enabled roll_factor thrust mask rudder_dt max_motors actuator in
  override = mask /\
  writes = map (fun i => RcWrite i (motor_mask_pwm e (actuator' i)))
             (filter (fun i => motor_enabled i && motor_in_mask mask i) (seq 0 max_motors)) /\
  (forall j, (max_motors <= j)%nat \/ motor_enabled j && motor_in_mask mask j = false ->
     actuator' j = actuator j) /\
  (forall j, (j < max_motors)%nat -> motor_enabled j && motor_in_mask mask j = true ->
     actuator' j = output_motor_mask_actuator e (roll_factor j) (actuator j) thrust rudder_dt).
Proof. apply output_motor_mask_closed_form. Qed.

Lemma motor_mask_pwm_zero (e : Env) : motor_mask_pwm e 0 = pwm_min e.
Proof.
  unfold motor_mask_pwm.
  assert (inject_Z (pwm_min e) <= inject_Z (pwm_min e)
            + inject_Z (wrap_int16 (pwm_max e - pwm_min e)) * 0 <= inject_Z (pwm_min e))
    as H by (split; ring_simplify; apply Qle_refl).
  apply float_to_int_between in H. lia.
Qed.

(** X21: when disarmed or with the interlock off, [output_motor_mask] sets
    the actuator of every enabled motor selected by the mask to 0 and writes
    exactly the minimum PWM to each of them. *)
Theorem output_motor_mask_disarmed (e : Env) (motor_enabled : nat -> bool)
    (roll_factor : nat -> Q) (thrust : Q) (mask : Z) (rudder_dt : Q)
    (max_motors : nat) (actuator : nat -> Q) :
  armed e = false \/ interlock e = false ->
  let '(_, actuator', writes) :=
    output_motor_mask e motor_enabled roll_factor thrust mask rudder_dt max_motors actuator in
  writes = map (fun i => RcWrite i (pwm_min e))
             (filter (fun i => motor_enabled i && motor_in_mask mask i) (seq 0 max_motors)) /\
  (forall j, (j < max_motors)%nat -> motor_enabled j && motor_in_mask mask j = true ->
     actuator' j = 0).
Proof.
  intro Hd.
  assert (armed e && interlock e = false) as Hai
    by (destruct Hd as [-> | ->]; [reflexivity | apply andb_false_r]).
  pose proof (output_motor_mask_closed_form e motor_enabled roll_factor thrust mask
                rudder_dt max_motors actuator) as H.
  destruct (output_motor_mask _ _ _ _ _ _ _ _) as [[ov a'] w].
  destruct H as (_ & Hw & _ & Hs).
  assert (forall j, (j < max_motors)%nat -> motor_enabled j && motor_in_mask mask j = true ->
            a' j = 0) as H0.
  { intros j Hj Hsel. rewrite (Hs j Hj Hsel). unfold output_motor_mask_actuator.
    rewrite Hai. reflexivity. }
  split; [| exact H0].
  rewrite Hw. apply map_ext_in. intros i Hi. apply filter_In in Hi.
  destruct Hi as [Hi Hsel]. apply in_seq in Hi.
  rewrite (H0 i ltac:(lia) Hsel). rewrite motor_mask_pwm_zero. reflexivity.
Qed.

Lemma output_motor_mask_disarmed_witness :
  let e := {| armed := false; interlock := true; dt_s := 1#400; disarm_disable_pwm := false;
    safe_time := 1; spool_down_time := 0; slew_up_time := 0; slew_dn_time := 0;
    spin_arm := 1#10; spin_min := 15#100; spoolup_block := false; thrust_balanced := true;
    get_throttle := 1#2; get_throttle_hover := 1#2; batt_current_max := 0;
    batt_current_time_constant := 5; batt_current := None; batt_resistance := 0;
    batt_voltage := 14; batt_voltage_min := 13; pwm_min := 1100; pwm_max := 1900 |} in
  let '(_, actuator', writes) :=
    output_motor_mask e (fun _ => true) (fun _ => 0) (1#2) 5 0 4 (fun _ => 1#2) in
  writes = map (fun i => RcWrite i (pwm_min e))
             (filter (fun i => true && motor_in_mask 5 i) (seq 0 4)) /\
  (forall j, (j < 4)%nat -> true && motor_in_mask 5 j = true -> actuator' j = 0).
Proof.
  intro e. apply (output_motor_mask_disarmed e). left. reflexivity.
Defined.

Lemma wrap_int16_small (z : Z) : (0 <= z <= 32767)%Z -> wrap_int16 z = z.
Proof.
  intro H. unfold wrap_int16. rewrite Z.mod_small by lia. lia.
Qed.

(** X22: when 0 <= [pwm_min] <= [pwm_max] <= 32767 (so the [int16_t]
    range and output fit without wrapping), every write of
    [output_motor_mask] is an [rc_write] with a PWM between [pwm_min] and
    [pwm_max]. *)
Theorem output_motor_mask_pwm_range (e : Env) (motor_enabled : nat -> bool)
    (roll_factor : nat -> Q) (thrust : Q) (mask : Z) (rudder_dt : Q)
    (max_motors : nat) (actuator : nat -> Q) :
  (0 <= pwm_min e)%Z -> (pwm_min e <= pwm_max e)%Z -> (pwm_max e <= 32767)%Z ->
  let '(_, _, writes) :=
    output_motor_mask e motor_enabled roll_factor thrust mask rudder_dt max_motors actuator in
  Forall (fun w => exists i p, w = RcWrite i p /\ (pwm_min e <= p <= pwm_max e)%Z) writes.
Proof.
  intros H0 H1 H2.
  pose proof (output_motor_mask_closed_form e motor_enabled roll_factor thrust mask
                rudder_dt max_motors actuator) as H.
  destruct (output_motor_mask _ _ _ _ _ _ _ _) as [[ov a'] w].
  destruct H as (_ & Hw & _ & Hs).
  rewrite Hw. apply Forall_forall. intros x Hx. apply in_map_iff in Hx.
  destruct Hx as (i & <- & Hi). apply filter_In in Hi. destruct Hi as [Hi Hsel].
  apply in_seq in Hi.
  exists i, (motor_mask_pwm e (a' i)). split; [reflexivity |].
  assert (0 <= a' i <= 1) as Ha.
  { rewrite (Hs i ltac:(lia) Hsel). unfold output_motor_mask_actuator.
    destruct (armed e && interlock e); [apply slew_result_unit | lra]. }
  unfold motor_mask_pwm. rewrite wrap_int16_small by lia.
  apply float_to_int_between. apply pwm_formula_between; [lia | exact Ha].
Qed.

Lemma output_motor_mask_pwm_range_witness :
  let '(_, _, writes) :=
    output_motor_mask env_example (fun _ => true) (fun _ => 1) (1#2) 5 (1#10) 4 (fun _ => 0) in
  Forall (fun w => exists i p, w = RcWrite i p
                     /\ (pwm_min env_example <= p <= pwm_max env_example)%Z) writes.
Proof.
  apply output_motor_mask_pwm_range; simpl; lia.
Defined.

(** ** ESC calibration passthrough *)

Lemma constrain_float_at_low amt low high :
  low <= high -> amt <= low -> constrain_float amt low high == low.
Proof. intros. unfold constrain_float. qcase E1; [reflexivity |]. qcase E2; lra. Qed.

Lemma constrain_float_at_high amt low high :
  low <= high -> high <= amt -> constrain_float amt low high == high.
Proof. intros. unfold constrain_float. qcase E1; [lra |]. qcase E2; [reflexivity | lra]. Qed.

Lemma float_to_int_eq (z : Z) (q : Q) : q == inject_Z z -> float_to_int q = z.
Proof.
  intro H. assert (inject_Z z <= q <= inject_Z z) as H' by lra.
  apply float_to_int_between in H'. lia.
Qed.

(** X23: when armed, [set_throttle_passthrough_for_esc_calibration] writes
    one and the same PWM to every enabled motor, in motor order, and then to
    the right and left bicopter throttle channels; with [pwm_min <= pwm_max]
    that PWM lies between them, equals [pwm_min] for a throttle input at or
    below 0 and [pwm_max] for an input at or above 1.  With
    0 <= [pwm_min] and [pwm_max] <= 65535 the [uint16_t] store is exact. *)
Theorem esc_calibration_writes (max_motors : nat) (motor_enabled : nat -> bool) (e : Env)
    (throttle_input : Q) :
  armed e = true -> (0 <= pwm_min e)%Z -> (pwm_min e <= pwm_max e)%Z ->
  (pwm_max e <= 65535)%Z ->
  exists pwm,
    set_throttle_passthrough_for_esc_calibration max_motors motor_enabled e throttle_input
    = (map (fun i => RcWrite i pwm) (filter motor_enabled (seq 0 max_motors))
       ++ [ThrottleRightWrite pwm; ThrottleLeftWrite pwm])%list /\
    (pwm_min e <= pwm <= pwm_max e)%Z /\
    (throttle_input <= 0 -> pwm = pwm_min e) /\
    (1 <= throttle_input -> pwm = pwm_max e).
Proof.
  intros Ha H0 H1 H2. unfold set_throttle_passthrough_for_esc_calibration. rewrite Ha.
  eexists. split; [reflexivity |].
  assert (0 <= inject_Z (pwm_max e - pwm_min e)) as Hd.
  { change 0 with (inject_Z 0). rewrite <- Zle_Qle. lia. }
  assert (inject_Z (pwm_max e) == inject_Z (pwm_min e) + inject_Z (pwm_max e - pwm_min e))
    as Hs by (unfold Z.sub; rewrite inject_Z_plus, inject_Z_opp; ring).
  split; [| split].
  - apply float_to_int_between. rewrite Qmult_comm. apply pwm_formula_between; [lia |].
    apply constrain_float_bounds. lra.
  - intro Ht. apply float_to_int_eq.
    rewrite (constrain_float_at_low throttle_input 0 1) by lra. ring.
  - intro Ht. apply float_to_int_eq.
    rewrite (constrain_float_at_high throttle_input 0 1) by lra. rewrite Hs. ring.
Qed.

Lemma esc_calibration_writes_witness :
  exists pwm,
    set_throttle_passthrough_for_esc_calibration 4 (fun i => Nat.ltb i 3) env_example (1#2)
    = (map (fun i => RcWrite i pwm) (filter (fun i => Nat.ltb i 3) (seq 0 4))
       ++ [ThrottleRightWrite pwm; ThrottleLeftWrite pwm])%list /\
    (pwm_min env_example <= pwm <= pwm_max env_example)%Z /\
    ((1#2) <= 0 -> pwm = pwm_min env_example) /\
    (1 <= (1#2) -> pwm = pwm_max env_example).
Proof.
  apply esc_calibration_writes; simpl; try reflexivity; lia.
Defined.

(** ** Battery current limit *)

Lemma ratio_le (c1 c2 m1 m2 : Q) :
  0 < m1 -> 0 < m2 -> c1 * m2 <= c2 * m1 -> c1 / m1 <= c2 / m2.
Proof.
  intros H1 H2 H. apply Qle_shift_div_r; [exact H1 |].
  setoid_replace (c2 / m2 * m1) with (c2 * m1 / m2) by (field; intro; lra).
  apply Qle_shift_div_l; [exact H2 | lra].
Qed.

(** X24: with the battery current limit active (armed, a positive
    [MOT_BAT_CURR_MAX], a battery resistance estimate of at least
    FLT_EPSILON, voltage above MOT_BAT_VOLT_MIN), a non-negative filter gain,
    a hover throttle at most 1 and two non-negative current readings, the
    higher reading never gives a higher throttle ceiling from
    [get_current_limit_max_throttle], nor a higher stored [_throttle_limit]. *)
Theorem current_limit_antitone (e : Env) (tl c1 c2 : Q) :
  armed e = true -> 0 < batt_current_max e -> FLT_EPSILON <= batt_resistance e ->
  batt_voltage_min e < batt_voltage e -> 0 <= dt_s e ->
  0 <= batt_current_time_constant e -> 0 < dt_s e + batt_current_time_constant e ->
  get_throttle_hover e <= 1 -> 0 <= c1 -> c1 <= c2 ->
  let e1 := env_with e (spoolup_block e) (disarm_disable_pwm e) (Some c1) in
  let e2 := env_with e (spoolup_block e) (disarm_disable_pwm e) (Some c2) in
  fst (current_limit e2 tl) <= fst (current_limit e1 tl) /\
  snd (current_limit e2 tl) <= snd (current_limit e1 tl).
Proof.
  intros Ha HM HR HV Hdt Htc Hsum Hh Hc1 Hc12. cbv zeta.
  unfold current_limit. simpl. rewrite Ha.
  assert (Qleb (batt_current_max e) 0 = false) as E1.
  { apply Bool.not_true_iff_false. intro H. apply Qleb_true_iff in H. lra. }
  assert (is_zero (batt_resistance e) = false) as E2.
  { unfold is_zero. apply Qltb_false. rewrite Qabs_pos; [exact HR |].
    unfold FLT_EPSILON in HR. lra. }
  rewrite E1, E2. simpl.
  set (k := (batt_voltage e - batt_voltage_min e) / batt_resistance e).
  assert (0 < k) as Hk.
  { apply Qlt_shift_div_l; [unfold FLT_EPSILON in HR; lra | lra]. }
  set (M := batt_current_max e) in *.
  assert (forall c, 0 <= c -> 0 < Qmin' M (c + k)) as Hm.
  { intros c Hc. destruct (Qmin'_cases M (c + k)) as [[-> _] | [-> _]]; lra. }
  assert (c1 / Qmin' M (c1 + k) <= c2 / Qmin' M (c2 + k)) as Hr.
  { apply ratio_le; [apply Hm; lra | apply Hm; lra |].
    destruct (Qmin'_cases M (c1 + k)) as [[-> ?] | [-> ?]];
      destruct (Qmin'_cases M (c2 + k)) as [[-> ?] | [-> ?]]; nra. }
  set (g := dt_s e / (dt_s e + batt_current_time_constant e)).
  assert (0 <= g) as Hg by (apply div_nonneg; lra).
  set (r1 := c1 / Qmin' M (c1 + k)) in *. set (r2 := c2 / Qmin' M (c2 + k)) in *.
  assert (tl + g * (1 - r2) <= tl + g * (1 - r1)) as Ht by nra.
  pose proof (constrain_float_mono _ _ (1#5) 1 ltac:(lra) Ht) as Hc.
  split; [| exact Hc].
  nra.
Qed.

Lemma current_limit_antitone_witness :
  let e1 := env_with env_example false false (Some 50) in
  let e2 := env_with env_example false false (Some 70) in
  fst (current_limit e2 1) <= fst (current_limit e1 1) /\
  snd (current_limit e2 1) <= snd (current_limit e1 1).
Proof.
  apply (current_limit_antitone env_example 1 50 70); try reflexivity;
    unfold FLT_EPSILON; simpl; lra.
Defined.

(** ** Further invariants of [output_logic] *)

Lemma spool_switch_desired (e : Env) (s : St) :
  spool_desired (spool_switch e s) = spool_desired s.
Proof.
  destruct (spool_state s) eqn:Hs; unfold_spool; rewrite Hs; simpl;
    destruct (spool_desired s) eqn:Hd; split_branches; rewrite ?Hd; reflexivity.
Qed.

Lemma spool_switch_boost_flag (e : Env) (s : St) :
  thrust_boost (spool_switch e s) = true -> thrust_boost s = true.
Proof.
  destruct (spool_state s) eqn:Hs; unfold_spool; rewrite Hs; simpl;
    destruct (spool_desired s); split_branches; auto; discriminate.
Qed.

Lemma spool_switch_shut_down_limits (e : Env) (s : St) :
  spool_state (spool_switch e s) = SHUT_DOWN -> limit (spool_switch e s) = all_limits true.
Proof.
  destruct (spool_state s) eqn:Hs; unfold_spool; rewrite Hs; simpl;
    destruct (spool_desired s); split_branches; rewrite ?Hs; intro H;
    try discriminate; reflexivity.
Qed.

Lemma current_limit_snd_range (e : Env) (tl : Q) :
  1#5 <= snd (current_limit e tl) <= 1.
Proof.
  unfold current_limit.
  destruct (Qleb (batt_current_max e) 0 || negb (armed e)); [cbn [snd]; lra |].
  destruct (batt_current e); [| cbn [snd]; lra].
  destruct (is_zero (batt_resistance e)); [cbn [snd]; lra |].
  cbv zeta. cbn [snd]. apply constrain_float_bounds. lra.
Qed.

Lemma spool_switch_throttle_limit_range (e : Env) (s : St) :
  1#5 <= throttle_limit s <= 1 ->
  1#5 <= throttle_limit (spool_switch e s) <= 1.
Proof.
  intro H.
  destruct (spool_state s) eqn:Hs; unfold_spool; rewrite Hs; simpl;
    destruct (spool_desired s);
    repeat (simpl; match goal with
    | |- context [current_limit ?e ?t] =>
        let R := fresh "R" in pose proof (current_limit_snd_range e t) as R;
        destruct (current_limit e t); cbn [snd] in R
    | |- context [if ?c then _ else _] => destruct c
    end); simpl; lra.
Qed.

(** X25: [output_logic] changes the desired spool state only when it forces
    SHUT_DOWN (disarmed or interlock off); when armed with the interlock on
    the desired state is left as requested. *)
Theorem output_logic_keeps_desired (e : Env) (s : St) :
  armed e = true -> interlock e = true ->
  spool_desired (output_logic e s) = spool_desired s.
Proof.
  intros Ha Hi.
  destruct (output_logic_prelude e s) as (s' & -> & _ & _ & _ & _ & _ & _ & Hst).
  rewrite Ha, Hi in Hst. destruct Hst as [_ Hd].
  rewrite spool_switch_desired. exact Hd.
Qed.

Lemma output_logic_keeps_desired_witness :
  spool_desired (output_logic env_example (st_example SPOOLING_UP DS_GROUND_IDLE))
  = DS_GROUND_IDLE.
Proof.
  apply (output_logic_keeps_desired env_example (st_example SPOOLING_UP DS_GROUND_IDLE));
    reflexivity.
Defined.

(** X26: whenever [output_logic] ends in SHUT_DOWN, all five limit flags
    (roll, pitch, yaw, throttle lower and upper) are set. *)
Theorem output_logic_shut_down_limits (e : Env) (s : St) :
  spool_state (output_logic e s) = SHUT_DOWN -> limit (output_logic e s) = all_limits true.
Proof.
  destruct (output_logic_prelude e s) as (s' & -> & _).
  apply spool_switch_shut_down_limits.
Qed.

Lemma output_logic_shut_down_limits_witness :
  limit (output_logic env_example (st_example SHUT_DOWN DS_SHUT_DOWN))
  = all_limits true.
Proof.
  apply output_logic_shut_down_limits. vm_compute. reflexivity.
Defined.

(** X27: [output_logic] never turns thrust boost on: if [_thrust_boost] is
    set afterwards it was already set before. *)
Theorem output_logic_never_sets_boost (e : Env) (s : St) :
  thrust_boost (output_logic e s) = true -> thrust_boost s = true.
Proof.
  intro H. unfold output_logic in H. apply spool_switch_boost_flag in H. revert H.
  repeat (match goal with |- context [if ?c then _ else _] => destruct c end; simpl);
    auto.
Qed.

Lemma output_logic_never_sets_boost_witness :
  let s := {| spool_desired := DS_THROTTLE_UNLIMITED; spool_state := THROTTLE_UNLIMITED;
    disarm_safe_timer := 0; spool_up_time := 1#2; spin_up_ratio := 1;
    throttle_thrust_max := 2#5; thrust_boost := true; thrust_boost_ratio := 0;
    limit := all_limits false; throttle_limit := 1 |} in
  thrust_boost s = true.
Proof.
  intro s. apply (output_logic_never_sets_boost env_example s). reflexivity.
Defined.

(** X28: [output_logic] keeps the battery-current throttle limit
    [_throttle_limit] in [0.2, 1]: every value it stores comes from
    [get_current_limit_max_throttle], which resets it to 1 or constrains it
    to that range. *)
Theorem output_logic_throttle_limit_range (e : Env) (s : St) :
  1#5 <= throttle_limit s <= 1 ->
  1#5 <= throttle_limit (output_logic e s) <= 1.
Proof.
  intro H.
  destruct (output_logic_prelude e s) as (s' & -> & _ & _ & _ & _ & L & _).
  apply spool_switch_throttle_limit_range. rewrite L. exact H.
Qed.

Lemma output_logic_throttle_limit_range_witness :
  1#5 <= throttle_limit
           (output_logic env_example (st_example THROTTLE_UNLIMITED DS_THROTTLE_UNLIMITED))
      <= 1.
Proof.
  apply output_logic_throttle_limit_range. simpl. lra.
Defined.
